(** * The sampling core of the audio visualizer

    A shallow embedding of [include/CircularBuffer.h], [src/CircularBuffer.cpp]
    and [src/visualizer.cpp]: the ring container, the conversion-complete
    interrupt handler with its ping/pong switchboard, the conditional
    compilation that selects the sample width, the initialisation sequence of
    the converter and the foreground loop.

    Unsigned machine quantities are values of [N]; the wrap-around of an
    [unsigned char] is written out with [uchar].  An array access outside the
    storage is undefined behaviour in C++: the operations that index the
    storage return [None] there. *)

From stdpp Require Import base numbers option list strings gmap.

Local Open Scope N_scope.

(** ** Machine integers *)

(** Conversion to [unsigned char]: reduction modulo 2^8. *)
Definition uchar (n : N) : N := n mod 256.

(** ** The ring container (CircularBuffer.h, CircularBuffer.cpp) *)

Module CircularBuffer.

(** The members the member functions use.  The header declares [buffer],
    [i] and [capacity]; the implementation file also reads and writes
    [size].  [buffer] is [unsigned char buffer[BUF_SIZE]]. *)
Record t : Type := mk {
  buffer : list N;
  i : N;
  size : N;
  capacity : N
}.

(** [buffer[this.i] = data; if (++this.i >= this.capacity) this.i = 0;]
    The slot is an [unsigned char], so is [i]: the stored value and the
    incremented index are both reduced modulo 2^8.  [size] is not
    mentioned by the body. *)
Definition write (data : N) (r : t) : option t :=
  if i r <? N.of_nat (length (buffer r)) then
    let i1 := uchar (i r + 1) in
    Some {| buffer := <[N.to_nat (i r) := uchar data]> (buffer r);
            i := if capacity r <=? i1 then 0 else i1;
            size := size r;
            capacity := capacity r |}
  else None.

(** The overload taking [const T&] has the same body. *)
Definition write_ref (data : N) (r : t) : option t :=
  if i r <? N.of_nat (length (buffer r)) then
    let i1 := uchar (i r + 1) in
    Some {| buffer := <[N.to_nat (i r) := uchar data]> (buffer r);
            i := if capacity r <=? i1 then 0 else i1;
            size := size r;
            capacity := capacity r |}
  else None.

(** [this.size = 0;] *)
Definition clear (r : t) : t :=
  {| buffer := buffer r; i := i r; size := 0; capacity := capacity r |}.

Section WithBufSize.

(** The macro [BUF_SIZE]; its definition is not part of the sources. *)
Variable BUF_SIZE : N.

(** The constructor as defined in CircularBuffer.cpp: it takes no
    argument, zeroes the storage, [i] and [size], and does not assign
    [capacity].  [mem] is the object's storage as the constructor finds
    it; [capacity] keeps whatever it holds. *)
Definition construct (mem : t) : t :=
  {| buffer := replicate (N.to_nat BUF_SIZE) 0;
     i := 0;
     size := 0;
     capacity := capacity mem |}.

(** [return this.size >= BUF_SIZE;] *)
Definition full (r : t) : bool := BUF_SIZE <=? size r.

End WithBufSize.

(** A history of calls made on one ring. *)
Inductive op : Type :=
| op_write (data : N)
| op_clear.

Definition apply (o : op) (r : t) : option t :=
  match o with
  | op_write data => write data r
  | op_clear => Some (clear r)
  end.

Fixpoint run (ops : list op) (r : t) : option t :=
  match ops with
  | [] => Some r
  | o :: ops' => r' ← apply o r; run ops' r'
  end.

Definition writes (xs : list N) (r : t) : option t := run (op_write <$> xs) r.

(** The index stays inside the storage and the wrap point does not lie
    beyond it. *)
Definition in_bounds (r : t) : Prop :=
  i r < N.of_nat (length (buffer r)) ∧ capacity r <= N.of_nat (length (buffer r)).

End CircularBuffer.

(** ** Conditional compilation (visualizer.cpp, lines 44 to 85) *)

Module Preprocessor.

(** The object-like macros in force, by name. *)
Definition value (env : gmap string N) (name : string) : N :=
  default 0 (env !! name).

(** [#define ADC_PRESCALER 16] is the only definition the file makes
    before the chain. *)
Definition source_macros : gmap string N := {[ "ADC_PRESCALER"%string := 16 ]}.

(** The [#if]/[#elif] chain that defines [ADC_BITS].  Every arm tests the
    identifier [ADC_PRESCALAR]; an identifier that is not a macro has the
    value 0 in an [#if] expression.  [None] is the [#error] arm. *)
Definition ADC_BITS (env : gmap string N) : option N :=
  let p := value env "ADC_PRESCALAR" in
  if p =? 128 then Some 9
  else if p =? 64 then Some 9
  else if p =? 32 then Some 9
  else if p =? 16 then Some 8
  else if p =? 8 then Some 7
  else if p =? 4 then Some 5
  else None.

(** Width in bytes of the integer types the file names. *)
Inductive int_type : Type := uint8_t | uint16_t.

Definition sizeof (ty : int_type) : N :=
  match ty with uint8_t => 1 | uint16_t => 2 end.

(** [#if ADC_BITS > 8 typedef uint16_t adc_data_t; #elif typedef uint8_t
    adc_data_t; #endif].  The second directive is an [#elif] with no
    expression, which is ill-formed when it is evaluated: [None]. *)
Definition adc_data_t (bits : N) : option int_type :=
  if 8 <? bits then Some uint16_t else None.

(** Which data register expression the handler passes to [write]:
    [#if ADC_BITS > 8 ... write(ADC) #else ... write(ADCH)]. *)
Inductive data_register : Type := ADC | ADCH.

Definition isr_reads (bits : N) : data_register :=
  if 8 <? bits then ADC else ADCH.

End Preprocessor.

(** ** The switchboard and the interrupt handler (visualizer.cpp) *)

Module Visualizer.

(** [capt_buf] and [proc_buf] hold the address of [ping] or of [pong]. *)
Inductive buf_ptr : Type := Ping | Pong.

Global Instance buf_ptr_eq_dec : EqDecision buf_ptr.
Proof. solve_decision. Defined.

(** The globals the handler and the foreground share. *)
Record state : Type := mk {
  processing : bool;
  ping : CircularBuffer.t;
  pong : CircularBuffer.t;
  capt_buf : buf_ptr;
  proc_buf : buf_ptr
}.

(** [*p] *)
Definition deref (p : buf_ptr) (s : state) : CircularBuffer.t :=
  match p with Ping => ping s | Pong => pong s end.

(** [*p = r]: the object behind [p] is updated in place; both aliases see
    it. *)
Definition assign (p : buf_ptr) (r : CircularBuffer.t) (s : state) : state :=
  match p with
  | Ping => {| processing := processing s; ping := r; pong := pong s;
               capt_buf := capt_buf s; proc_buf := proc_buf s |}
  | Pong => {| processing := processing s; ping := ping s; pong := r;
               capt_buf := capt_buf s; proc_buf := proc_buf s |}
  end.

(** A pipeline stage that reads the frame and may work on the samples in
    place, but leaves the flag and the two aliases to the core. *)
Definition keeps_switchboard (stage : state → state) : Prop :=
  ∀ s, processing (stage s) = processing s
       ∧ capt_buf (stage s) = capt_buf s
       ∧ proc_buf (stage s) = proc_buf s.

Section WithConfiguration.

(** [BUF_SIZE] and [ADC_BITS] are fixed when the program is built. *)
Variable BUF_SIZE : N.
Variable ADC_BITS : N.

(** The value the handler passes to [write], from the two halves of the
    result register: the 16-bit [ADC] when more than eight bits are
    kept, [ADCH] alone otherwise. *)
Definition sample (adcl adch : N) : N :=
  match Preprocessor.isr_reads ADC_BITS with
  | Preprocessor.ADC => adch * 256 + adcl
  | Preprocessor.ADCH => adch
  end.

(** [ISR(ADC_vect)]: one invocation, run to completion. *)
Definition ISR (adcl adch : N) (s : state) : option state :=
  r ← CircularBuffer.write (sample adcl adch) (deref (capt_buf s) s);
  let s1 := assign (capt_buf s) r s in
  if negb (processing s1) && CircularBuffer.full BUF_SIZE (deref (capt_buf s1) s1)
  then
    let tmp := proc_buf s1 in
    Some {| processing := true; ping := ping s1; pong := pong s1;
            capt_buf := tmp; proc_buf := capt_buf s1 |}
  else Some s1.

(** The software part of [setup]: both rings constructed (static
    initialisation; the argument [BUFF_SIZE] the declarations pass has no
    parameter to receive it in the constructor as defined), the aliases and
    the flag assigned. *)
Definition setup (mem_ping mem_pong : CircularBuffer.t) : state :=
  {| processing := false;
     ping := CircularBuffer.construct BUF_SIZE mem_ping;
     pong := CircularBuffer.construct BUF_SIZE mem_pong;
     capt_buf := Ping;
     proc_buf := Pong |}.

(** A burst of conversions with the foreground not running: the handler
    once per sample, in order. *)
Fixpoint ISRs (samples : list (N * N)) (s : state) : option state :=
  match samples with
  | [] => Some s
  | (adcl, adch) :: rest => s' ← ISR adcl adch s; ISRs rest s'
  end.

Section WithPipeline.

(** The stages [loop] calls; none of them is defined in the sources. *)
Variables preprocess fft_input fft_execute fft_output postprocess : state → state.

(** [loop]: the spin [while(!processing);], then the five stages in order;
    nothing follows the call of [postprocess].  With the flag down and no
    interrupt the spin does not end: [None]. *)
Definition loop (s : state) : option state :=
  if processing s
  then Some (postprocess (fft_output (fft_execute (fft_input (preprocess s)))))
  else None.

(** What happens to the shared state: a conversion completes and the
    handler runs, or the foreground makes one pass of [loop].  While
    [processing] is false the foreground sits in the spin and changes
    nothing. *)
Inductive event : Type :=
| conversion (adcl adch : N)
| foreground.

Definition step (e : event) (s : state) : option state :=
  match e with
  | conversion adcl adch => ISR adcl adch s
  | foreground => Some (default s (loop s))
  end.

Fixpoint run (es : list event) (s : state) : option state :=
  match es with
  | [] => Some s
  | e :: es' => s' ← step e s; run es' s'
  end.

End WithPipeline.

End WithConfiguration.

End Visualizer.

(** ** Initialisation of the converter (visualizer.cpp, lines 148 to 238) *)

Module Hardware.

(** The special function registers the initialisation touches. *)
Inductive register : Type := ADCSRA | ADCSRB | ADMUX | DIDR0.

(** The bit names it uses; their positions come from the device header. *)
Inductive bit : Type :=
| ADEN | ADSC | ADIE | ADPS2 | ADPS1 | ADPS0
| ADTS2 | ADTS1 | ADTS0
| ADLAR
| ADC5D | ADC4D | ADC3D | ADC2D | ADC1D | ADC0D.

(** One statement of the initialisation that has an effect outside the
    switchboard, in the source's own words. *)
Inductive action : Type :=
| sbi (r : register) (b : bit)
| cbi (r : register) (b : bit)
| analogReference_EXTERNAL
| or_assign (r : register) (v : N)
| assign_capt_buf_ping
| assign_proc_buf_pong
| assign_processing_false
| sei.

Global Instance register_eq_dec : EqDecision register.
Proof. solve_decision. Defined.

Global Instance bit_eq_dec : EqDecision bit.
Proof. solve_decision. Defined.

Global Instance action_eq_dec : EqDecision action.
Proof. solve_decision. Defined.

(** [#define ADC_PIN 0] *)
Definition ADC_PIN : N := 0.

(** [init_adc], statement by statement. *)
Definition init_adc : list action :=
  [ sbi ADCSRA ADEN;
    sbi ADCSRA ADSC;
    sbi ADCSRA ADIE;
    cbi ADCSRB ADTS2;
    cbi ADCSRB ADTS1;
    cbi ADCSRB ADTS0;
    sbi ADCSRA ADPS2;
    cbi ADCSRA ADPS1;
    sbi ADCSRA ADPS0 ].

(** [init_analog]; the justification bit depends on [ADC_BITS]. *)
Definition init_analog (ADC_BITS : N) : list action :=
  [ sbi DIDR0 ADC5D;
    sbi DIDR0 ADC4D;
    sbi DIDR0 ADC3D;
    sbi DIDR0 ADC2D;
    sbi DIDR0 ADC1D;
    sbi DIDR0 ADC0D;
    analogReference_EXTERNAL;
    (if ADC_BITS <=? 8 then sbi ADMUX ADLAR else cbi ADMUX ADLAR);
    or_assign ADMUX (N.land ADC_PIN 7) ].

(** [setup]: the order in which its statements take effect. *)
Definition setup (ADC_BITS : N) : list action :=
  init_analog ADC_BITS ++ init_adc
  ++ [ assign_capt_buf_ping; assign_proc_buf_pong; assign_processing_false; sei ].

(** What the converter and the processor have been told so far. *)
Record machine : Type := mk {
  regs : register → N;
  reference_external : bool;
  interrupts_enabled : bool;
  conversions_started : nat
}.

Section WithBitPositions.

(** The position of each named bit in its register (device header). *)
Variable position : bit → N.

Definition set_bit (b : bit) (v : N) : N := N.lor v (N.shiftl 1 (position b)).
Definition clear_bit (b : bit) (v : N) : N := N.ldiff v (N.shiftl 1 (position b)).

Definition update (r : register) (f : N → N) (m : machine) : machine :=
  {| regs := λ r', if decide (r' = r) then f (regs m r') else regs m r';
     reference_external := reference_external m;
     interrupts_enabled := interrupts_enabled m;
     conversions_started := conversions_started m |}.

(** Effect of one statement.  Setting [ADSC] starts a conversion. *)
Definition exec (a : action) (m : machine) : machine :=
  match a with
  | sbi r b =>
      let m' := update r (set_bit b) m in
      if decide (b = ADSC)
      then {| regs := regs m'; reference_external := reference_external m';
              interrupts_enabled := interrupts_enabled m';
              conversions_started := S (conversions_started m') |}
      else m'
  | cbi r b => update r (clear_bit b) m
  | analogReference_EXTERNAL =>
      {| regs := regs m; reference_external := true;
         interrupts_enabled := interrupts_enabled m;
         conversions_started := conversions_started m |}
  | or_assign r v => update r (N.lor v) m
  | assign_capt_buf_ping | assign_proc_buf_pong | assign_processing_false => m
  | sei =>
      {| regs := regs m; reference_external := reference_external m;
         interrupts_enabled := true;
         conversions_started := conversions_started m |}
  end.

Definition exec_all (l : list action) (m : machine) : machine :=
  foldl (λ m a, exec a m) m l.

End WithBitPositions.

(** Setting [ADSC] is what starts a conversion; [sei] is what lets the
    handler run. *)
Definition starts_conversion (a : action) : bool :=
  match a with sbi _ ADSC => true | _ => false end.

Definition enables_interrupts (a : action) : bool :=
  match a with sei => true | _ => false end.

(** The statements that configure the sampler, as opposed to starting it or
    touching the switchboard. *)
Definition configures (a : action) : bool :=
  match a with
  | sbi _ ADSC => false
  | sbi _ _ | cbi _ _ | analogReference_EXTERNAL | or_assign _ _ => true
  | _ => false
  end.

End Hardware.

(** The effect of one statement of the initialisation on the contents [v]
    of one register [R]. *)
Definition register_step (position : Hardware.bit → N) (R : Hardware.register)
    (v : N) (a : Hardware.action) : N :=
  match a with
  | Hardware.sbi r b => if decide (R = r) then Hardware.set_bit position b v else v
  | Hardware.cbi r b => if decide (R = r) then Hardware.clear_bit position b v else v
  | Hardware.or_assign r x => if decide (R = r) then N.lor x v else v
  | _ => v
  end.

(** Bit positions as the ATmega328P device header gives them, and a machine
    whose registers hold all ones, for concrete instances. *)
Definition datasheet_position (b : Hardware.bit) : N :=
  match b with
  | Hardware.ADEN => 7 | Hardware.ADSC => 6 | Hardware.ADIE => 3
  | Hardware.ADPS2 => 2 | Hardware.ADPS1 => 1 | Hardware.ADPS0 => 0
  | Hardware.ADTS2 => 2 | Hardware.ADTS1 => 1 | Hardware.ADTS0 => 0
  | Hardware.ADLAR => 5
  | Hardware.ADC5D => 5 | Hardware.ADC4D => 4 | Hardware.ADC3D => 3
  | Hardware.ADC2D => 2 | Hardware.ADC1D => 1 | Hardware.ADC0D => 0
  end.

Definition all_ones_machine : Hardware.machine :=
  Hardware.mk (λ _, 255) false false 0.

(** The values a history passes to [write], in order. *)
Definition written (ops : list CircularBuffer.op) : list N :=
  omap (λ o, match o with
             | CircularBuffer.op_write data => Some data
             | CircularBuffer.op_clear => None
             end) ops.

(** * Properties *)

(** ** Machine integers *)

Lemma uchar_small n : n < 256 → uchar n = n.
Proof. intros H. unfold uchar. by apply N.mod_small. Qed.

Lemma uchar_bound n : uchar n < 256.
Proof. unfold uchar. by apply N.mod_upper_bound. Qed.

(** ** The ring container *)

Section RingFacts.

Import CircularBuffer.

Implicit Types (r : CircularBuffer.t) (x data : N).

Lemma write_ref_eq data r : write_ref data r = write data r.
Proof. reflexivity. Qed.

(** [write] returns exactly when the index is inside the storage. *)
Lemma write_is_Some data r :
  is_Some (write data r) ↔ i r < N.of_nat (length (buffer r)).
Proof.
  unfold write. destruct (N.ltb_spec (i r) (N.of_nat (length (buffer r)))) as [H|H].
  - split; [done | eauto].
  - split; [intros [? ?]; done | lia].
Qed.

Lemma write_inv data r r' :
  write data r = Some r' →
  i r < N.of_nat (length (buffer r))
  ∧ buffer r' = <[N.to_nat (i r) := uchar data]> (buffer r)
  ∧ i r' = (if capacity r <=? uchar (i r + 1) then 0 else uchar (i r + 1))
  ∧ size r' = size r
  ∧ capacity r' = capacity r.
Proof.
  unfold write. destruct (N.ltb_spec (i r) (N.of_nat (length (buffer r)))) as [H|H];
    [| done].
  intros [= <-]. by cbn.
Qed.

Lemma write_size data r r' : write data r = Some r' → size r' = size r.
Proof. intros H. apply write_inv in H. tauto. Qed.

Lemma write_length data r r' :
  write data r = Some r' → length (buffer r') = length (buffer r).
Proof.
  intros H. apply write_inv in H as (_ & -> & _). apply length_insert.
Qed.

Lemma write_in_bounds data r r' :
  in_bounds r → write data r = Some r' → in_bounds r'.
Proof.
  intros [Hi Hc] H. pose proof (write_length _ _ _ H) as Hl.
  apply write_inv in H as (_ & _ & Hi' & _ & Hc').
  unfold in_bounds. rewrite Hl, Hi', Hc'. split; [| done].
  destruct (N.leb_spec (capacity r) (uchar (i r + 1))); lia.
Qed.

Lemma clear_in_bounds r : in_bounds r → in_bounds (clear r).
Proof. done. Qed.

Lemma apply_in_bounds o r : in_bounds r → ∃ r', apply o r = Some r' ∧ in_bounds r'.
Proof.
  intros Hb. destruct o as [data|]; cbn.
  - destruct (proj2 (write_is_Some data r) (proj1 Hb)) as [r' Hr'].
    exists r'. eauto using write_in_bounds.
  - eauto using clear_in_bounds.
Qed.

(** A ring that starts in bounds never leaves its storage: every history
    of calls runs to completion. *)
Lemma run_in_bounds ops r : in_bounds r → ∃ r', run ops r = Some r' ∧ in_bounds r'.
Proof.
  revert r. induction ops as [|o ops IH]; intros r Hb; cbn.
  - eauto.
  - destruct (apply_in_bounds o r Hb) as (r1 & -> & Hb1). cbn. by apply IH.
Qed.

Lemma apply_size_zero o r r' : size r = 0 → apply o r = Some r' → size r' = 0.
Proof.
  intros Hz. destruct o as [data|]; cbn.
  - intros H. apply write_size in H. congruence.
  - by intros [= <-].
Qed.

Lemma run_size_zero ops r r' : size r = 0 → run ops r = Some r' → size r' = 0.
Proof.
  revert r. induction ops as [|o ops IH]; intros r Hz; cbn.
  - by intros [= <-].
  - destruct (apply o r) as [r1|] eqn:E; cbn; [| done].
    apply IH. eauto using apply_size_zero.
Qed.

Lemma construct_in_bounds BUF_SIZE mem :
  0 < BUF_SIZE → capacity mem <= BUF_SIZE → in_bounds (construct BUF_SIZE mem).
Proof.
  intros Hpos Hcap. unfold in_bounds, construct. cbn.
  rewrite length_replicate. lia.
Qed.

Lemma full_size_zero BUF_SIZE r : 0 < BUF_SIZE → size r = 0 → full BUF_SIZE r = false.
Proof. intros Hpos Hz. unfold full. rewrite Hz. apply N.leb_gt. lia. Qed.

End RingFacts.

Section RingClaims.

Import CircularBuffer.

Implicit Types (r : CircularBuffer.t) (x data : N).

Lemma write_mk data buf k sz cap k' :
  (k <? N.of_nat (length buf)) = true →
  (if cap <=? uchar (k + 1) then 0 else uchar (k + 1)) = k' →
  write data (mk buf k sz cap)
  = Some (mk (<[N.to_nat k := uchar data]> buf) k' sz cap).
Proof. intros Hk <-. unfold write. cbn [i buffer capacity size]. by rewrite Hk. Qed.

(** One [write] on a ring given by its fields, its index arithmetic
    evaluated. *)
Ltac write_step :=
  erewrite write_mk by (cbv; reflexivity);
  cbn [mbind option_bind N.to_nat Pos.to_nat Pos.iter_op Init.Nat.add
       insert list_insert].

(** C1, as the code has it.  On a fresh ring of four slots, [write 10]
    stores 10 in slot 0 and advances [i] from 0 to 1, and after three more
    writes [i] is back at 0; [size], however, is 0 before and 0 after every
    one of them: the write path never counts the element it stored. *)
Theorem write_does_not_count :
  write 10 (mk [0; 0; 0; 0] 0 0 4) = Some (mk [10; 0; 0; 0] 1 0 4)
  ∧ writes [10; 20; 30; 40] (mk [0; 0; 0; 0] 0 0 4)
    = Some (mk [10; 20; 30; 40] 0 0 4)
  ∧ writes [10; 20; 30; 40; 50] (mk [0; 0; 0; 0] 0 0 4)
    = Some (mk [50; 20; 30; 40] 1 0 4).
Proof. repeat split; vm_compute; reflexivity. Qed.

(** C2, as the code has it.  With [BUF_SIZE] and the capacity both 4, four
    writes into a freshly constructed ring leave [size] at 0, not at
    min(4, 4), and [full] still answers false although as many values were
    written as the ring holds. *)
Theorem four_writes_not_full :
  let fresh := construct 4 (mk [] 0 0 4) in
  writes [1; 2; 3; 4] fresh = Some (mk [1; 2; 3; 4] 0 0 4)
  ∧ size (mk [1; 2; 3; 4] 0 0 4) = 0
  ∧ full 4 (mk [1; 2; 3; 4] 0 0 4) = false
  ∧ full 4 fresh = false.
Proof. repeat split; vm_compute; reflexivity. Qed.

(** What the wrap would look like on a ring whose [capacity] field did hold
    4: [clear] sets [size] to 0 and leaves [i], the stored bytes and the
    capacity as they were, and with the index at 0, six writes, a [clear]
    and two more writes of byte values [a] and [b] leave [a] in slot 2 and
    [b] in slot 3, while slots 0 and 1 hold the fifth and sixth value.  No
    constructed ring is in that state: the constructor does not assign
    [capacity]. *)
Lemma wrap_preserved_with_capacity_set :
  (∀ r, size (clear r) = 0 ∧ i (clear r) = i r ∧ buffer (clear r) = buffer r
        ∧ capacity (clear r) = capacity r)
  ∧ (∀ r v1 v2 v3 v4 v5 v6 a b,
       i r = 0 → capacity r = 4 → length (buffer r) = 4%nat →
       a < 256 → b < 256 →
       ∃ r',
         run [op_write v1; op_write v2; op_write v3; op_write v4;
              op_write v5; op_write v6; op_clear; op_write a; op_write b] r
         = Some r'
         ∧ buffer r' = [uchar v5; uchar v6; a; b]
         ∧ i r' = 0 ∧ size r' = 0).
Proof.
  split; [done |].
  intros [buf i0 sz cap] v1 v2 v3 v4 v5 v6 a b; cbn [i capacity buffer].
  intros -> -> Hlen Ha Hb.
  destruct buf as [|b0 [|b1 [|b2 [|b3 [|]]]]]; try done.
  cbn [run apply].
  do 6 write_step. unfold clear; cbn [buffer i size capacity]. do 2 write_step.
  eexists; split; [reflexivity |]. cbn [buffer i size].
  by rewrite (uchar_small a), (uchar_small b).
Qed.

Lemma wrap_preserved_with_capacity_set_witness :
  ∃ r',
    run [op_write 1; op_write 2; op_write 3; op_write 4;
         op_write 5; op_write 6; op_clear; op_write 7; op_write 8]
        (mk [0; 0; 0; 0] 0 0 4)
    = Some r'
    ∧ buffer r' = [uchar 5; uchar 6; 7; 8]
    ∧ i r' = 0 ∧ size r' = 0.
Proof.
  apply (proj2 wrap_preserved_with_capacity_set (mk [0; 0; 0; 0] 0 0 4)
           1 2 3 4 5 6 7 8);
    reflexivity.
Defined.

(** C6, as the code has it.  [clear] itself does what is asked of it: it
    sets [size] to 0 and leaves [i], the stored bytes and the capacity as
    they were.  But a constructed ring is not a ring of capacity 4: the
    constructor never assigns [capacity], and in the zero-initialised
    storage of the program's two rings the field is 0.  On such a ring of
    four slots every write lands in slot 0, so six writes, a [clear] and
    two more writes leave the last value in slot 0 and slots 1, 2 and 3
    still zero, with the index at 0. *)
Theorem clear_then_write_on_constructed_ring :
  (∀ r, size (clear r) = 0 ∧ i (clear r) = i r ∧ buffer (clear r) = buffer r
        ∧ capacity (clear r) = capacity r)
  ∧ (∀ v1 v2 v3 v4 v5 v6 a b,
       run [op_write v1; op_write v2; op_write v3; op_write v4;
            op_write v5; op_write v6; op_clear; op_write a; op_write b]
           (construct 4 (mk [] 0 0 0))
       = Some (mk [uchar b; 0; 0; 0] 0 0 0))
  ∧ run [op_write 1; op_write 2; op_write 3; op_write 4;
         op_write 5; op_write 6; op_clear; op_write 7; op_write 8]
        (construct 4 (mk [] 0 0 0))
    = Some (mk [8; 0; 0; 0] 0 0 0).
Proof.
  split; [done |]. split.
  - intros v1 v2 v3 v4 v5 v6 a b.
    change (construct 4 (mk [] 0 0 0)) with (mk [0; 0; 0; 0] 0 0 0).
    cbn [run apply].
    do 6 write_step. unfold clear; cbn [buffer i size capacity]. do 2 write_step.
    reflexivity.
  - vm_compute. reflexivity.
Qed.

(** C7.  With a storage of at least one slot, every history of [write] and
    [clear] calls on a constructed ring ends, if at all, in a state whose
    [size] is 0 and for which [full] answers false; and when the capacity
    the constructor found does not exceed the storage, every such history
    does run to completion. *)
Theorem size_stays_zero BUF_SIZE mem ops :
  0 < BUF_SIZE →
  (∀ r, run ops (construct BUF_SIZE mem) = Some r →
        size r = 0 ∧ full BUF_SIZE r = false)
  ∧ (capacity mem <= BUF_SIZE → is_Some (run ops (construct BUF_SIZE mem))).
Proof.
  intros Hpos. split.
  - intros r Hrun.
    assert (size r = 0) as Hz by (eapply run_size_zero; [| exact Hrun]; done).
    split; [done |]. by apply full_size_zero.
  - intros Hcap.
    destruct (run_in_bounds ops (construct BUF_SIZE mem)) as (r & Hr & _);
      [by apply construct_in_bounds | eauto].
Qed.

Lemma size_stays_zero_witness :
  0 < 4
  ∧ (∀ r, run [op_write 1; op_write 2; op_write 3; op_write 4; op_write 5]
              (construct 4 (mk [] 0 0 4)) = Some r →
          size r = 0 ∧ full 4 r = false)
  ∧ (4 <= 4 →
     is_Some (run [op_write 1; op_write 2; op_write 3; op_write 4; op_write 5]
                  (construct 4 (mk [] 0 0 4)))).
Proof.
  split; [reflexivity |].
  apply (size_stays_zero 4 (mk [] 0 0 4)
           [op_write 1; op_write 2; op_write 3; op_write 4; op_write 5]).
  reflexivity.
Defined.

(** C10.  A [write] whose index lies inside the storage returns a ring in
    which every slot other than the one at the old index holds what it held
    before, the storage has the same length, and [capacity] (and [size])
    are unchanged; the slot at the old index holds the value written,
    reduced to a byte. *)
Theorem write_frame data r :
  i r < N.of_nat (length (buffer r)) →
  ∃ r',
    write data r = Some r'
    ∧ (∀ k : nat, k ≠ N.to_nat (i r) → buffer r' !! k = buffer r !! k)
    ∧ buffer r' !! N.to_nat (i r) = Some (uchar data)
    ∧ length (buffer r') = length (buffer r)
    ∧ capacity r' = capacity r
    ∧ size r' = size r.
Proof.
  intros Hi. destruct (proj2 (write_is_Some data r) Hi) as [r' Hw].
  exists r'. split; [done |].
  pose proof (write_length _ _ _ Hw) as Hlen.
  apply write_inv in Hw as (_ & Hb & _ & Hs & Hc).
  rewrite Hb. repeat split; try done.
  - intros k Hk. by apply list_lookup_insert_ne.
  - apply list_lookup_insert_eq. lia.
  - apply length_insert.
Qed.

Lemma write_frame_witness :
  1 < N.of_nat (length (buffer (mk [10; 20; 30; 40] 1 0 4)))
  ∧ ∃ r',
      write 99 (mk [10; 20; 30; 40] 1 0 4) = Some r'
      ∧ (∀ k : nat, k ≠ N.to_nat 1 → buffer r' !! k = [10; 20; 30; 40] !! k)
      ∧ buffer r' !! N.to_nat 1 = Some (uchar 99)
      ∧ length (buffer r') = 4%nat
      ∧ capacity r' = 4
      ∧ size r' = 0.
Proof.
  split; [reflexivity |].
  apply (write_frame 99 (mk [10; 20; 30; 40] 1 0 4)). reflexivity.
Defined.

End RingClaims.

(** ** The switchboard *)

Section SwitchboardFacts.

Import Visualizer.

Implicit Types (s : state) (p q : buf_ptr) (r : CircularBuffer.t).

Lemma deref_assign_eq p r s : deref p (assign p r s) = r.
Proof. by destruct p. Qed.

Lemma deref_assign_ne p q r s : p ≠ q → deref q (assign p r s) = deref q s.
Proof. by destruct p, q. Qed.

Lemma assign_fields p r s :
  processing (assign p r s) = processing s
  ∧ capt_buf (assign p r s) = capt_buf s
  ∧ proc_buf (assign p r s) = proc_buf s.
Proof. by destruct p. Qed.

Variables BUF_SIZE ADC_BITS : N.

(** The two ways out of the handler. *)
Lemma ISR_inv adcl adch s s' :
  ISR BUF_SIZE ADC_BITS adcl adch s = Some s' →
  ∃ r,
    CircularBuffer.write (sample ADC_BITS adcl adch) (deref (capt_buf s) s) = Some r
    ∧ ((processing s = false ∧ CircularBuffer.full BUF_SIZE r = true
        ∧ s' = {| processing := true;
                  ping := ping (assign (capt_buf s) r s);
                  pong := pong (assign (capt_buf s) r s);
                  capt_buf := proc_buf s;
                  proc_buf := capt_buf s |})
       ∨ ((processing s = true ∨ CircularBuffer.full BUF_SIZE r = false)
          ∧ s' = assign (capt_buf s) r s)).
Proof.
  unfold ISR.
  destruct (CircularBuffer.write _ _) as [r|] eqn:Hw; cbn; [| done].
  destruct (assign_fields (capt_buf s) r s) as (Hp & Hc & Hq).
  rewrite Hp, Hc, Hq, deref_assign_eq.
  intros H. exists r. split; [done |].
  destruct (processing s), (CircularBuffer.full BUF_SIZE r); cbn in H;
    injection H as <-; eauto.
Qed.

Lemma ISR_is_Some adcl adch s :
  CircularBuffer.in_bounds (deref (capt_buf s) s) →
  is_Some (ISR BUF_SIZE ADC_BITS adcl adch s).
Proof.
  intros [Hi _].
  destruct (proj2 (write_is_Some (sample ADC_BITS adcl adch) _) Hi) as [r Hr].
  unfold ISR. rewrite Hr. cbn.
  destruct (negb _ && _); eauto.
Qed.

(** With the flag raised the handler only writes through [capt_buf]. *)
Lemma ISR_busy adcl adch s s' :
  processing s = true →
  ISR BUF_SIZE ADC_BITS adcl adch s = Some s' →
  ∃ r,
    CircularBuffer.write (sample ADC_BITS adcl adch) (deref (capt_buf s) s) = Some r
    ∧ s' = assign (capt_buf s) r s.
Proof.
  intros Hbusy H. apply ISR_inv in H as (r & Hw & [(Hp & _) | (_ & ->)]).
  - congruence.
  - eauto.
Qed.

Lemma ISR_distinct adcl adch s s' :
  ISR BUF_SIZE ADC_BITS adcl adch s = Some s' →
  capt_buf s ≠ proc_buf s → capt_buf s' ≠ proc_buf s'.
Proof.
  intros H Hne. apply ISR_inv in H as (r & _ & [(_ & _ & ->) | (_ & ->)]).
  - cbn. congruence.
  - destruct (assign_fields (capt_buf s) r s) as (_ & -> & ->). done.
Qed.

(** With [size] at 0 in both rings and a storage of at least one slot the
    handler never raises the flag. *)
Lemma ISR_idle adcl adch s s' :
  0 < BUF_SIZE →
  processing s = false →
  CircularBuffer.size (ping s) = 0 → CircularBuffer.size (pong s) = 0 →
  ISR BUF_SIZE ADC_BITS adcl adch s = Some s' →
  processing s' = false
  ∧ CircularBuffer.size (ping s') = 0 ∧ CircularBuffer.size (pong s') = 0
  ∧ capt_buf s' = capt_buf s ∧ proc_buf s' = proc_buf s.
Proof.
  intros Hpos Hp Hz1 Hz2 H.
  apply ISR_inv in H as (r & Hw & [(_ & Hf & _) | (_ & ->)]).
  - apply write_size in Hw.
    assert (CircularBuffer.size r = 0) as Hz
      by (rewrite Hw; by destruct (capt_buf s)).
    rewrite (full_size_zero _ _ Hpos Hz) in Hf. done.
  - apply write_size in Hw.
    destruct (capt_buf s) eqn:Hc; cbn in *; repeat split; congruence.
Qed.

(** From [setup] on, however many conversions complete, the flag stays
    down and the aliases stay where [setup] put them. *)
Lemma ISRs_never_promote samples mem_ping mem_pong s' :
  0 < BUF_SIZE →
  ISRs BUF_SIZE ADC_BITS samples (setup BUF_SIZE mem_ping mem_pong) = Some s' →
  processing s' = false ∧ capt_buf s' = Ping ∧ proc_buf s' = Pong.
Proof.
  intros Hpos.
  pose (s0 := setup BUF_SIZE mem_ping mem_pong).
  assert (processing s0 = false
          ∧ CircularBuffer.size (ping s0) = 0 ∧ CircularBuffer.size (pong s0) = 0
          ∧ capt_buf s0 = Ping ∧ proc_buf s0 = Pong) as Hinv by done.
  fold s0. clearbody s0. revert s0 Hinv.
  induction samples as [|[adcl adch] rest IH]; intros s (Hp & Hz1 & Hz2 & Hc & Hq); cbn.
  - intros [= <-]. done.
  - destruct (ISR BUF_SIZE ADC_BITS adcl adch s) as [s1|] eqn:E; cbn; [| done].
    destruct (ISR_idle _ _ _ _ Hpos Hp Hz1 Hz2 E) as (Hp1 & Hz1' & Hz2' & Hc1 & Hq1).
    apply IH. repeat split; congruence.
Qed.


Section WithStages.

Variables preprocess fft_input fft_execute fft_output postprocess : state → state.
Hypothesis preprocess_keeps : keeps_switchboard preprocess.
Hypothesis fft_input_keeps : keeps_switchboard fft_input.
Hypothesis fft_execute_keeps : keeps_switchboard fft_execute.
Hypothesis fft_output_keeps : keeps_switchboard fft_output.
Hypothesis postprocess_keeps : keeps_switchboard postprocess.

Local Abbreviation loop :=
  (loop preprocess fft_input fft_execute fft_output postprocess).
Local Abbreviation step :=
  (step BUF_SIZE ADC_BITS preprocess fft_input fft_execute fft_output postprocess).
Local Abbreviation run :=
  (run BUF_SIZE ADC_BITS preprocess fft_input fft_execute fft_output postprocess).

(** A pass of [loop] gets past the spin exactly when the flag is up, and
    then the flag and the aliases come out as they went in. *)
Lemma loop_inv s s' :
  loop s = Some s' →
  processing s = true
  ∧ processing s' = processing s
  ∧ capt_buf s' = capt_buf s
  ∧ proc_buf s' = proc_buf s.
Proof.
  unfold Visualizer.loop. destruct (processing s) eqn:Hp; [| done].
  intros [= <-]. split; [done |].
  destruct (postprocess_keeps (fft_output (fft_execute (fft_input (preprocess s)))))
    as (-> & -> & ->).
  destruct (fft_output_keeps (fft_execute (fft_input (preprocess s))))
    as (-> & -> & ->).
  destruct (fft_execute_keeps (fft_input (preprocess s))) as (-> & -> & ->).
  destruct (fft_input_keeps (preprocess s)) as (-> & -> & ->).
  destruct (preprocess_keeps s) as (-> & -> & ->). done.
Qed.

Lemma loop_is_Some s : processing s = true → is_Some (loop s).
Proof. intros Hp. unfold Visualizer.loop. rewrite Hp. eauto. Qed.

Lemma step_distinct e s s' :
  step e s = Some s' → capt_buf s ≠ proc_buf s → capt_buf s' ≠ proc_buf s'.
Proof.
  destruct e as [adcl adch|]; cbn.
  - apply ISR_distinct.
  - intros [= <-] Hne. destruct (loop s) as [s1|] eqn:E; cbn; [| done].
    apply loop_inv in E as (_ & _ & -> & ->). done.
Qed.

Lemma run_distinct es s s' :
  run es s = Some s' → capt_buf s ≠ proc_buf s → capt_buf s' ≠ proc_buf s'.
Proof.
  revert s. induction es as [|e es IH]; intros s; cbn.
  - by intros [= <-].
  - destruct (step e s) as [s1|] eqn:E; cbn; [| done].
    intros Hrun Hne. eapply IH; [exact Hrun |]. eapply step_distinct; eauto.
Qed.

(** Once the flag is up, nothing in the program takes it down again. *)
Lemma step_busy e s s' :
  processing s = true → step e s = Some s' →
  processing s' = true ∧ capt_buf s' = capt_buf s ∧ proc_buf s' = proc_buf s.
Proof.
  intros Hbusy. destruct e as [adcl adch|]; cbn.
  - intros H. apply (ISR_busy _ _ _ _ Hbusy) in H as (r & _ & ->).
    destruct (assign_fields (capt_buf s) r s) as (-> & -> & ->). done.
  - intros [= <-]. destruct (loop s) as [s1|] eqn:E; cbn; [| done].
    apply loop_inv in E as (_ & -> & -> & ->). done.
Qed.

Lemma run_busy es s s' :
  processing s = true → run es s = Some s' →
  processing s' = true ∧ capt_buf s' = capt_buf s ∧ proc_buf s' = proc_buf s.
Proof.
  revert s. induction es as [|e es IH]; intros s Hbusy; cbn.
  - by intros [= <-].
  - destruct (step e s) as [s1|] eqn:E; cbn; [| done].
    intros Hrun. destruct (step_busy _ _ _ Hbusy E) as (Hb1 & <- & <-).
    by apply IH.
Qed.

(** C3.  Every completed invocation of the handler moves the flag from
    false to true exactly when the flag was false and the ring it has just
    written to reports [full]; whenever it does so, the same invocation
    leaves [capt_buf] holding the old [proc_buf] and [proc_buf] the old
    [capt_buf].  With pipeline stages that leave the flag and the aliases
    alone, every state reached from [setup] by conversions and passes of the
    foreground loop has [capt_buf] different from [proc_buf]. *)
Theorem promotion_swaps :
  (∀ adcl adch s s',
     ISR BUF_SIZE ADC_BITS adcl adch s = Some s' →
     ((processing s = false ∧ processing s' = true)
      ↔ (processing s = false
         ∧ CircularBuffer.full BUF_SIZE (deref (capt_buf s) s') = true))
     ∧ (processing s = false → processing s' = true →
        capt_buf s' = proc_buf s ∧ proc_buf s' = capt_buf s))
  ∧ (∀ mem_ping mem_pong es s',
       run es (setup BUF_SIZE mem_ping mem_pong) = Some s' →
       capt_buf s' ≠ proc_buf s').
Proof.
  split.
  - intros adcl adch s s' H.
    apply ISR_inv in H as (r & _ & [(Hp & Hf & ->) | (Hor & ->)]).
    + assert (deref (capt_buf s)
                {| processing := true;
                   ping := ping (assign (capt_buf s) r s);
                   pong := pong (assign (capt_buf s) r s);
                   capt_buf := proc_buf s;
                   proc_buf := capt_buf s |} = r) as Hd
        by (by destruct (capt_buf s)).
      rewrite Hd. cbn. by repeat split.
    + destruct (assign_fields (capt_buf s) r s) as (-> & -> & ->).
      rewrite deref_assign_eq.
      split; [split |].
      * intros [Hp Hx]. congruence.
      * intros [Hp Hx]. destruct Hor; congruence.
      * intros Hp Hx. congruence.
  - intros mem_ping mem_pong es s' Hrun.
    eapply run_distinct; [exact Hrun | done].
Qed.

(** C4, as the code has it.  With pipeline stages that leave the flag
    alone, a pass of [loop] that starts with the flag raised returns with
    the flag still raised and the aliases unchanged: the loop itself never
    lowers it.  Hence from any state with the flag raised, no sequence of
    conversions and loop passes lowers the flag or exchanges the aliases
    again. *)
Theorem loop_never_rearms :
  (∀ s, processing s = true →
        ∃ s', loop s = Some s'
              ∧ processing s' = true
              ∧ capt_buf s' = capt_buf s
              ∧ proc_buf s' = proc_buf s)
  ∧ (∀ es s s',
       processing s = true → run es s = Some s' →
       processing s' = true ∧ capt_buf s' = capt_buf s ∧ proc_buf s' = proc_buf s).
Proof.
  split.
  - intros s Hbusy. destruct (loop_is_Some s Hbusy) as [s' Hs'].
    exists s'. split; [done |].
    apply loop_inv in Hs' as (_ & -> & -> & ->). done.
  - intros es s s'. apply run_busy.
Qed.

End WithStages.

End SwitchboardFacts.

Lemma keeps_switchboard_id : Visualizer.keeps_switchboard id.
Proof. by intros s. Defined.


Lemma promotion_swaps_witness :
  let s0 := Visualizer.mk false
              (CircularBuffer.mk [10; 20; 30; 0] 3 4 4)
              (CircularBuffer.mk [0; 0; 0; 0] 0 0 4)
              Visualizer.Ping Visualizer.Pong in
  let s1 := Visualizer.mk true
              (CircularBuffer.mk [10; 20; 30; 40] 0 4 4)
              (CircularBuffer.mk [0; 0; 0; 0] 0 0 4)
              Visualizer.Pong Visualizer.Ping in
  let fresh := Visualizer.setup 4 (CircularBuffer.mk [] 0 0 0)
                 (CircularBuffer.mk [] 0 0 0) in
  Visualizer.keeps_switchboard id
  ∧ Visualizer.ISR 4 8 0 40 s0 = Some s1
  ∧ ((Visualizer.processing s0 = false ∧ Visualizer.processing s1 = true)
     ↔ (Visualizer.processing s0 = false
        ∧ CircularBuffer.full 4 (Visualizer.deref (Visualizer.capt_buf s0) s1)
          = true))
  ∧ (Visualizer.processing s0 = false → Visualizer.processing s1 = true →
     Visualizer.capt_buf s1 = Visualizer.proc_buf s0
     ∧ Visualizer.proc_buf s1 = Visualizer.capt_buf s0)
  ∧ (∀ s',
       Visualizer.run 4 8 id id id id id
         [Visualizer.conversion 0 10; Visualizer.foreground;
          Visualizer.conversion 0 20] fresh = Some s' →
       Visualizer.capt_buf s' ≠ Visualizer.proc_buf s').
Proof.
  intros s0 s1 fresh.
  pose proof (promotion_swaps 4 8 id id id id id
                keeps_switchboard_id keeps_switchboard_id keeps_switchboard_id
                keeps_switchboard_id keeps_switchboard_id) as [Hisr Hrun].
  assert (Visualizer.ISR 4 8 0 40 s0 = Some s1) as Hstep by (vm_compute; reflexivity).
  split; [exact keeps_switchboard_id |].
  split; [exact Hstep |].
  split; [exact (proj1 (Hisr 0 40 s0 s1 Hstep)) |].
  split; [exact (proj2 (Hisr 0 40 s0 s1 Hstep)) |].
  exact (Hrun (CircularBuffer.mk [] 0 0 0) (CircularBuffer.mk [] 0 0 0)
           [Visualizer.conversion 0 10; Visualizer.foreground;
            Visualizer.conversion 0 20]).
Defined.

Lemma loop_never_rearms_witness :
  let s := Visualizer.mk true
             (CircularBuffer.mk [10; 20; 30; 40] 0 4 4)
             (CircularBuffer.mk [0; 0; 0; 0] 0 0 4)
             Visualizer.Pong Visualizer.Ping in
  Visualizer.keeps_switchboard id
  ∧ Visualizer.processing s = true
  ∧ (∃ s', Visualizer.loop id id id id id s = Some s'
           ∧ Visualizer.processing s' = true
           ∧ Visualizer.capt_buf s' = Visualizer.capt_buf s
           ∧ Visualizer.proc_buf s' = Visualizer.proc_buf s)
  ∧ (∀ s',
       Visualizer.run 4 8 id id id id id
         [Visualizer.foreground; Visualizer.conversion 0 50;
          Visualizer.foreground] s = Some s' →
       Visualizer.processing s' = true
       ∧ Visualizer.capt_buf s' = Visualizer.capt_buf s
       ∧ Visualizer.proc_buf s' = Visualizer.proc_buf s).
Proof.
  intros s.
  pose proof (loop_never_rearms 4 8 id id id id id
                keeps_switchboard_id keeps_switchboard_id keeps_switchboard_id
                keeps_switchboard_id keeps_switchboard_id) as [Hloop Hrun].
  split; [exact keeps_switchboard_id |].
  split; [reflexivity |].
  split; [exact (Hloop s eq_refl) |].
  intros s'. exact (Hrun _ s s' eq_refl).
Defined.

(** ** Conditional compilation *)

Section PreprocessorFacts.

Import Preprocessor.

(** What the chain yields for each value of the identifier it tests. *)
Lemma ADC_BITS_table :
  ADC_BITS {[ "ADC_PRESCALAR"%string := 4 ]} = Some 5
  ∧ ADC_BITS {[ "ADC_PRESCALAR"%string := 8 ]} = Some 7
  ∧ ADC_BITS {[ "ADC_PRESCALAR"%string := 16 ]} = Some 8
  ∧ ADC_BITS {[ "ADC_PRESCALAR"%string := 32 ]} = Some 9
  ∧ ADC_BITS {[ "ADC_PRESCALAR"%string := 64 ]} = Some 9
  ∧ ADC_BITS {[ "ADC_PRESCALAR"%string := 128 ]} = Some 9.
Proof.
  unfold ADC_BITS, value. rewrite !lookup_singleton_eq. cbn. done.
Qed.

Lemma ADC_BITS_error env :
  value env "ADC_PRESCALAR" ∉ [4; 8; 16; 32; 64; 128] → ADC_BITS env = None.
Proof.
  intros Hp. unfold ADC_BITS.
  repeat match goal with
         | |- context [?a =? ?b] =>
             destruct (N.eqb_spec a b) as [E|_];
             [exfalso; apply Hp; rewrite E; compute_done |]
         end.
  done.
Qed.

(** Up to eight bits the handler reads [ADCH] alone and [init_analog]
    left-justifies the result; above, the handler reads the 16-bit [ADC] and
    the result is right-justified. *)
Lemma isr_reads_by_width bits :
  (bits <= 8 →
   isr_reads bits = ADCH
   ∧ Hardware.sbi Hardware.ADMUX Hardware.ADLAR ∈ Hardware.init_analog bits)
  ∧ (8 < bits →
     isr_reads bits = ADC
     ∧ Hardware.cbi Hardware.ADMUX Hardware.ADLAR ∈ Hardware.init_analog bits).
Proof.
  unfold isr_reads, Hardware.init_analog. split; intros Hb.
  - assert ((8 <? bits) = false) as -> by (apply N.ltb_ge; lia).
    assert ((bits <=? 8) = true) as -> by (apply N.leb_le; lia).
    split; [done | compute_done].
  - assert ((8 <? bits) = true) as -> by (apply N.ltb_lt; lia).
    assert ((bits <=? 8) = false) as -> by (apply N.leb_gt; lia).
    split; [done | compute_done].
Qed.

(** C8, as the code has it.  Whatever value [ADC_PRESCALER] is defined
    with, 16 as in the source included, the chain tests the differently
    spelled [ADC_PRESCALAR], finds 0 and ends in its [#error] arm: no
    sample width is selected.  Were the width 8 or less, the storage type
    would be selected by an [#elif] that has no expression; and with a width
    of 9 the handler passes the 16-bit register to [write], which keeps its
    low byte only. *)
Theorem configured_prescaler_not_consulted :
  (∀ P, ADC_BITS {[ "ADC_PRESCALER"%string := P ]} = None)
  ∧ ADC_BITS source_macros = None
  ∧ adc_data_t 8 = None
  ∧ CircularBuffer.write (Visualizer.sample 9 52 1)
      (CircularBuffer.mk [0; 0; 0; 0] 0 0 4)
    = Some (CircularBuffer.mk [52; 0; 0; 0] 1 0 4).
Proof.
  split; [| split; [| split]].
  - intros P. apply ADC_BITS_error. unfold value.
    rewrite lookup_singleton_ne by done. cbn. compute_done.
  - apply ADC_BITS_error. unfold value, source_macros.
    rewrite lookup_singleton_ne by done. cbn. compute_done.
  - reflexivity.
  - vm_compute. reflexivity.
Qed.

End PreprocessorFacts.

(** ** Initialisation order *)

Section HardwareFacts.

Import Hardware.

(** The two observations the ordering is about, statement by statement. *)
Lemma exec_conversions position a m :
  conversions_started (exec position a m)
  = (if starts_conversion a then S (conversions_started m) else conversions_started m).
Proof. destruct a as [r b|r b| |r v| | | |]; try reflexivity. by destruct b. Qed.

Lemma exec_interrupts position a m :
  interrupts_enabled (exec position a m)
  = (enables_interrupts a || interrupts_enabled m).
Proof. destruct a as [r b|r b| |r v| | | |]; try reflexivity. by destruct b. Qed.

Lemma exec_all_conversions position l m :
  conversions_started (exec_all position l m)
  = (conversions_started m + length (List.filter starts_conversion l))%nat.
Proof.
  revert m. induction l as [|a l IH]; intros m; cbn.
  - lia.
  - unfold exec_all in IH. rewrite IH, exec_conversions.
    destruct (starts_conversion a); cbn; lia.
Qed.

Lemma exec_all_interrupts position l m :
  interrupts_enabled (exec_all position l m)
  = (existsb enables_interrupts l || interrupts_enabled m).
Proof.
  revert m. induction l as [|a l IH]; intros m; cbn.
  - done.
  - unfold exec_all in IH. rewrite IH, exec_interrupts.
    destruct (enables_interrupts a), (existsb enables_interrupts l); done.
Qed.

(** [sei] is the last statement of [setup], and every statement that
    configures the sampler comes before it. *)
Lemma sei_is_last ADC_BITS :
  ∃ l, setup ADC_BITS = l ++ [sei]
       ∧ (sei ∉ l)
       ∧ ∀ a, a ∈ setup ADC_BITS → configures a = true → a ∈ l.
Proof.
  exists (init_analog ADC_BITS ++ init_adc
          ++ [assign_capt_buf_ping; assign_proc_buf_pong; assign_processing_false]).
  split; [| split].
  - unfold setup. by rewrite <- !app_assoc.
  - unfold init_analog, init_adc. destruct (ADC_BITS <=? 8); compute_done.
  - intros a Ha Hc. unfold setup in Ha.
    rewrite !elem_of_app in Ha. rewrite !elem_of_app.
    destruct Ha as [Ha | [Ha | Ha]]; [by left | by right; left |].
    right; right.
    repeat (apply elem_of_cons in Ha as [-> | Ha]; [by (compute_done || discriminate) |]).
    by apply elem_of_nil in Ha.
Qed.

(** C9, as the code has it.  [setup] starts the first conversion as the
    second statement of [init_adc]: at that point interrupts have not been
    enabled, and the statements that enable the completion interrupt, select
    the trigger source and set the prescaler, as well as [sei], all come
    later.  On the machine, the conversion counter goes from 0 to 1 while
    the interrupt flag is still as it was on entry. *)
Theorem first_conversion_started_early ADC_BITS :
  ∃ before after,
    setup ADC_BITS = before ++ sbi ADCSRA ADSC :: after
    ∧ (sei ∉ before)
    ∧ sbi ADCSRA ADIE ∈ after
    ∧ cbi ADCSRB ADTS2 ∈ after ∧ cbi ADCSRB ADTS1 ∈ after ∧ cbi ADCSRB ADTS0 ∈ after
    ∧ sbi ADCSRA ADPS2 ∈ after ∧ cbi ADCSRA ADPS1 ∈ after ∧ sbi ADCSRA ADPS0 ∈ after
    ∧ last after = Some sei
    ∧ ∀ position m,
        let m1 := exec_all position (before ++ [sbi ADCSRA ADSC]) m in
        conversions_started m1 = S (conversions_started m)
        ∧ interrupts_enabled m1 = interrupts_enabled m.
Proof.
  exists (init_analog ADC_BITS ++ [sbi ADCSRA ADEN]).
  exists [ sbi ADCSRA ADIE; cbi ADCSRB ADTS2; cbi ADCSRB ADTS1; cbi ADCSRB ADTS0;
           sbi ADCSRA ADPS2; cbi ADCSRA ADPS1; sbi ADCSRA ADPS0;
           assign_capt_buf_ping; assign_proc_buf_pong; assign_processing_false;
           sei ].
  split; [unfold setup, init_adc; by rewrite <- !app_assoc |].
  split; [unfold init_analog; destruct (ADC_BITS <=? 8); compute_done |].
  do 7 (split; [compute_done |]).
  split; [reflexivity |].
  intros position m m1. subst m1.
  rewrite exec_all_conversions, exec_all_interrupts. unfold init_analog.
  destruct (ADC_BITS <=? 8); cbn; split; (lia || done).
Qed.

End HardwareFacts.

(** ** Histories of calls on one ring *)

Section RingMore.

Import CircularBuffer.

Implicit Types (r : CircularBuffer.t) (x data : N) (xs : list N).

Lemma writes_cons x xs r : writes (x :: xs) r = write x r ≫= writes xs.
Proof. reflexivity. Qed.

Lemma run_app ops1 ops2 r : run (ops1 ++ ops2) r = run ops1 r ≫= run ops2.
Proof.
  revert r. induction ops1 as [|o ops1 IH]; intros r; cbn; [done |].
  destruct (apply o r) as [r1|]; cbn; [apply IH | done].
Qed.

Lemma writes_app xs ys r : writes (xs ++ ys) r = writes xs r ≫= writes ys.
Proof. unfold writes. rewrite fmap_app. apply run_app. Qed.

(** One step of the index below the wrap point. *)
Lemma write_next data r r' :
  i r < capacity r → capacity r <= 256 →
  write data r = Some r' → i r' = (i r + 1) mod capacity r.
Proof.
  intros Hi Hc H. apply write_inv in H as (_ & _ & -> & _ & _).
  destruct (N.eq_dec (i r + 1) 256) as [E|E].
  - assert (capacity r = 256) as Hcap by lia.
    rewrite E, Hcap. reflexivity.
  - rewrite uchar_small by lia.
    destruct (N.leb_spec (capacity r) (i r + 1)).
    + assert (i r + 1 = capacity r) as -> by lia.
      symmetry. apply N.Div0.mod_same.
    + symmetry. by apply N.mod_small.
Qed.

Lemma writes_index xs r :
  i r < capacity r → capacity r <= 256 →
  capacity r <= N.of_nat (length (buffer r)) →
  ∃ r',
    writes xs r = Some r'
    ∧ i r' = (i r + N.of_nat (length xs)) mod capacity r
    ∧ capacity r' = capacity r
    ∧ length (buffer r') = length (buffer r)
    ∧ size r' = size r.
Proof.
  revert r. induction xs as [|x xs IH]; intros r Hi Hc Hl.
  - exists r. repeat split. cbn. rewrite N.add_0_r. symmetry. by apply N.mod_small.
  - destruct (proj2 (write_is_Some x r)) as [r1 Hw]; [lia |].
    pose proof (write_next _ _ _ Hi Hc Hw) as Hi1.
    pose proof (write_length _ _ _ Hw) as Hl1.
    pose proof (write_inv _ _ _ Hw) as (_ & _ & _ & Hs1 & Hc1).
    destruct (IH r1) as (r' & Hr' & Hi' & Hc' & Hl' & Hs').
    + rewrite Hi1, Hc1. apply N.mod_upper_bound. lia.
    + by rewrite Hc1.
    + by rewrite Hc1, Hl1.
    + exists r'. rewrite writes_cons, Hw. cbn. split; [done |].
      rewrite Hi', Hc', Hl', Hs', Hi1, Hc1, Hl1, Hs1. repeat split.
      rewrite N.Div0.add_mod_idemp_l. f_equal. cbn [length]. lia.
Qed.

Lemma writes_segment xs r :
  i r + N.of_nat (length xs) <= capacity r → capacity r <= 256 →
  capacity r <= N.of_nat (length (buffer r)) →
  ∃ r',
    writes xs r = Some r'
    ∧ buffer r' = take (N.to_nat (i r)) (buffer r) ++ (uchar <$> xs)
                  ++ drop (N.to_nat (i r) + length xs) (buffer r).
Proof.
  revert r. induction xs as [|x xs IH]; intros r Hi Hc Hl.
  - exists r. split; [done |]. cbn. rewrite Nat.add_0_r. by rewrite take_drop.
  - cbn [length] in Hi.
    destruct (proj2 (write_is_Some x r)) as [r1 Hw]; [lia |].
    pose proof (write_length _ _ _ Hw) as Hl1.
    pose proof (write_inv _ _ _ Hw) as (Hlt & Hb1 & Hi1 & _ & Hc1).
    rewrite writes_cons, Hw. cbn [mbind option_bind].
    destruct xs as [|y xs].
    + exists r1. split; [done |]. rewrite Hb1. cbn.
      rewrite insert_take_drop by lia. do 2 f_equal. f_equal. lia.
    + assert (i r1 = i r + 1) as Hnext.
      { rewrite Hi1. cbn [length] in Hi. rewrite uchar_small by lia.
        destruct (N.leb_spec (capacity r) (i r + 1)); lia. }
      destruct (IH r1) as (r' & Hr' & Hb').
      * rewrite Hnext, Hc1. cbn [length] in *. lia.
      * by rewrite Hc1.
      * by rewrite Hc1, Hl1.
      * exists r'. split; [done |]. rewrite Hb', Hnext, Hb1.
        replace (N.to_nat (i r + 1)) with (S (N.to_nat (i r))) by lia.
        rewrite (take_S_r _ _ (uchar x)) by (apply list_lookup_insert_eq; lia).
        rewrite take_insert_ge by lia.
        rewrite drop_insert_lt by lia.
        rewrite <- app_assoc. cbn [length fmap list_fmap app].
        replace (S (N.to_nat (i r)) + S (length xs))%nat
          with (N.to_nat (i r) + S (S (length xs)))%nat by lia.
        done.
Qed.


Lemma run_shape ops r r' :
  run ops r = Some r' →
  capacity r' = capacity r ∧ length (buffer r') = length (buffer r).
Proof.
  revert r. induction ops as [|o ops IH]; intros r; cbn.
  - by intros [= <-].
  - destruct (apply o r) as [r1|] eqn:E; cbn; [| done].
    intros Hrun. destruct (IH _ Hrun) as [-> ->].
    destruct o as [data|]; cbn in E.
    + pose proof (write_length _ _ _ E).
      apply write_inv in E as (_ & _ & _ & _ & Hc). done.
    + by injection E as <-.
Qed.

(** X1.  A ring whose index lies inside its storage and whose capacity
    does not exceed the storage never leaves it: every history of [write]
    and [clear] calls runs to completion, and the ring it ends in is again
    in bounds, with the same capacity and the same number of slots. *)
Theorem history_stays_in_bounds ops r :
  in_bounds r →
  ∃ r',
    run ops r = Some r'
    ∧ in_bounds r'
    ∧ capacity r' = capacity r
    ∧ length (buffer r') = length (buffer r).
Proof.
  intros Hb. destruct (run_in_bounds ops r Hb) as (r' & Hrun & Hb').
  exists r'. destruct (run_shape _ _ _ Hrun) as [Hc Hl]. done.
Qed.

(** X2.  Writes that stay below the wrap point fill consecutive slots: when
    the index plus the number of values does not exceed the capacity, the
    values, reduced to bytes, replace exactly the slots from the old index
    on, in order, everything before and after them is kept, and the index
    ends at the old index plus the number of values, or at 0 when that
    reaches the capacity. *)
Theorem writes_below_wrap xs r :
  i r < capacity r →
  i r + N.of_nat (length xs) <= capacity r →
  capacity r <= 256 →
  capacity r <= N.of_nat (length (buffer r)) →
  ∃ r',
    writes xs r = Some r'
    ∧ buffer r' = take (N.to_nat (i r)) (buffer r) ++ (uchar <$> xs)
                  ++ drop (N.to_nat (i r) + length xs) (buffer r)
    ∧ i r' = (if i r + N.of_nat (length xs) <? capacity r
              then i r + N.of_nat (length xs) else 0).
Proof.
  intros Hi Hfit Hc Hl.
  destruct (writes_segment xs r Hfit Hc Hl) as (r' & Hr' & Hb').
  destruct (writes_index xs r Hi Hc Hl) as (r'' & Hr'' & Hi'' & _).
  assert (r'' = r') as -> by congruence.
  exists r'. split; [done |]. split; [done |]. rewrite Hi''.
  destruct (N.ltb_spec (i r + N.of_nat (length xs)) (capacity r)).
  - by apply N.mod_small.
  - assert (i r + N.of_nat (length xs) = capacity r) as -> by lia.
    apply N.Div0.mod_same.
Qed.

(** X3.  Below the wrap point the index counts modulo the capacity: after
    any number of writes it is the old index plus that number, modulo the
    capacity, so it stays below the capacity, and a number of writes that is
    a multiple of the capacity brings it back to where it was. *)
Theorem writes_index_periodic xs r :
  i r < capacity r →
  capacity r <= 256 →
  capacity r <= N.of_nat (length (buffer r)) →
  ∃ r',
    writes xs r = Some r'
    ∧ i r' = (i r + N.of_nat (length xs)) mod capacity r
    ∧ i r' < capacity r
    ∧ (N.of_nat (length xs) mod capacity r = 0 → i r' = i r).
Proof.
  intros Hi Hc Hl.
  destruct (writes_index xs r Hi Hc Hl) as (r' & Hr' & Hi' & _).
  exists r'. split; [done |]. split; [done |]. rewrite Hi'. split.
  - apply N.mod_upper_bound. lia.
  - intros Hm. rewrite <- N.Div0.add_mod_idemp_r, Hm, N.add_0_r.
    by apply N.mod_small.
Qed.

(** X4.  Overrun overwrites the oldest slot: on a ring with the index at
    0, as many writes as the capacity followed by one more leave the last
    value in slot 0, the second to last-but-one values in the slots after
    it, and the index at 1 (at 0 for a ring of capacity 1). *)
Theorem overrun_overwrites_oldest xs y r :
  i r = 0 →
  xs ≠ [] →
  capacity r = N.of_nat (length xs) →
  capacity r <= 256 →
  capacity r <= N.of_nat (length (buffer r)) →
  ∃ r',
    writes (xs ++ [y]) r = Some r'
    ∧ buffer r' = uchar y :: drop 1 (uchar <$> xs) ++ drop (length xs) (buffer r)
    ∧ i r' = 1 mod capacity r.
Proof.
  intros Hi Hne Hcap Hc Hl.
  assert (0 < capacity r) as Hpos by (destruct xs; [done | cbn in Hcap; lia]).
  destruct (writes_segment xs r) as (r1 & Hr1 & Hb1); [lia | done | done |].
  destruct (writes_index xs r) as (r1' & Hr1' & Hi1 & Hc1 & Hl1 & _);
    [lia | done | done |].
  assert (r1' = r1) as -> by congruence.
  rewrite Hi, N.add_0_l, <- Hcap, N.Div0.mod_same in Hi1.
  rewrite Hi in Hb1. cbn in Hb1.
  destruct (proj2 (write_is_Some y r1)) as [r' Hw]; [rewrite Hi1, Hl1; lia |].
  exists r'. rewrite writes_app, Hr1. cbn [mbind option_bind].
  rewrite writes_cons, Hw. cbn. split; [done |].
  assert (i r' = 1 mod capacity r) as Hn.
  { rewrite (write_next y r1 r'); [by rewrite Hi1, Hc1 | | | done].
    - rewrite Hi1, Hc1. lia.
    - by rewrite Hc1. }
  apply write_inv in Hw as (_ & Hb' & _ & _ & _).
  rewrite Hb', Hi1, Hb1. split; [| done].
  destruct xs as [|x xs]; [done |]. cbn. by rewrite drop_0.
Qed.


(** A write below the wrap point leaves the index below it and does not
    touch the slots from the capacity on. *)
Lemma write_below_capacity data r r' :
  i r < capacity r → write data r = Some r' →
  i r' < capacity r'
  ∧ ∀ j : nat, (N.to_nat (capacity r) ≤ j)%nat → buffer r' !! j = buffer r !! j.
Proof.
  intros Hi H. apply write_inv in H as (_ & -> & -> & _ & ->). split.
  - destruct (N.leb_spec (capacity r) (uchar (i r + 1))); lia.
  - intros j Hj. apply list_lookup_insert_ne. lia.
Qed.

(** X5.  The slots from the capacity on are never written: on a ring whose
    index is below its capacity, every history of [write] and [clear]
    calls that runs to completion leaves each slot at a position not below
    the capacity holding what it held, and the index below the capacity. *)
Theorem slots_beyond_capacity_untouched ops r r' :
  i r < capacity r →
  run ops r = Some r' →
  i r' < capacity r
  ∧ ∀ j : nat, (N.to_nat (capacity r) ≤ j)%nat → buffer r' !! j = buffer r !! j.
Proof.
  revert r. induction ops as [|o ops IH]; intros r Hi; cbn.
  - by intros [= <-].
  - destruct (apply o r) as [r1|] eqn:E; cbn; [| done].
    intros Hrun.
    assert (i r1 < capacity r1 ∧ capacity r1 = capacity r
            ∧ ∀ j : nat, (N.to_nat (capacity r) ≤ j)%nat →
                         buffer r1 !! j = buffer r !! j) as (Hi1 & Hc1 & Hb1).
    { destruct o as [data|]; cbn in E.
      - destruct (write_below_capacity _ _ _ Hi E) as [? ?].
        apply write_inv in E as (_ & _ & _ & _ & ?). done.
      - injection E as <-. done. }
    destruct (IH r1 Hi1 Hrun) as [Hi' Hb']. rewrite Hc1 in Hi', Hb'.
    split; [done |]. intros j Hj. rewrite Hb' by done. by apply Hb1.
Qed.

(** X6.  A ring whose capacity field is 0, which is what the constructor
    leaves in zero-initialised storage, is a ring of one slot: with the
    index at 0 every write lands in slot 0 and resets the index to 0, so
    after any non-empty sequence of writes slot 0 holds the last value and
    no other slot has changed. *)
Theorem zero_capacity_single_slot xs y r :
  capacity r = 0 →
  i r = 0 →
  0 < N.of_nat (length (buffer r)) →
  ∃ r',
    writes (xs ++ [y]) r = Some r'
    ∧ buffer r' = <[0%nat := uchar y]> (buffer r)
    ∧ i r' = 0.
Proof.
  revert r. induction xs as [|x xs IH]; intros r Hc Hi Hl.
  - destruct (proj2 (write_is_Some y r)) as [r' Hw]; [lia |].
    exists r'. cbn [app]. rewrite writes_cons, Hw. split; [done |].
    apply write_inv in Hw as (_ & -> & -> & _ & _). rewrite Hc, Hi.
    split; reflexivity.
  - destruct (proj2 (write_is_Some x r)) as [r1 Hw]; [lia |].
    pose proof (write_length _ _ _ Hw) as Hl1.
    apply write_inv in Hw as Hinv. destruct Hinv as (_ & Hb1 & Hi1 & _ & Hc1).
    rewrite Hc in Hi1, Hc1.
    destruct (N.leb_spec 0 (uchar (i r + 1))) in Hi1; [| lia].
    destruct (IH r1) as (r' & Hr' & Hb' & Hi'); [done | done | by rewrite Hl1 |].
    exists r'. cbn [app]. rewrite writes_cons, Hw. cbn. split; [done |].
    split; [| done]. rewrite Hb', Hb1, Hi. apply list_insert_insert_eq.
Qed.

Lemma write_same_storage data r1 r2 r1' :
  buffer r1 = buffer r2 → i r1 = i r2 → capacity r1 = capacity r2 →
  write data r1 = Some r1' →
  ∃ r2', write data r2 = Some r2'
         ∧ buffer r1' = buffer r2' ∧ i r1' = i r2' ∧ capacity r1' = capacity r2'.
Proof.
  intros Hb Hi Hc H. apply write_inv in H as (Hlt & -> & -> & _ & ->).
  destruct (proj2 (write_is_Some data r2)) as [r2' Hw]; [by rewrite <- Hi, <- Hb |].
  exists r2'. split; [done |].
  apply write_inv in Hw as (_ & -> & -> & _ & ->). by rewrite Hb, Hi, Hc.
Qed.

(** X7.  [clear] calls have no effect on where later writes go: a history
    of [write] and [clear] calls that runs to completion ends with the same
    stored bytes, the same index and the same capacity as the history with
    the [clear] calls left out. *)
Theorem clear_calls_do_not_move_storage ops r r' :
  run ops r = Some r' →
  ∃ r'',
    writes (written ops) r = Some r''
    ∧ buffer r' = buffer r'' ∧ i r' = i r'' ∧ capacity r' = capacity r''.
Proof.
  enough (∀ r1 r2,
    buffer r1 = buffer r2 → i r1 = i r2 → capacity r1 = capacity r2 →
    run ops r1 = Some r' →
    ∃ r'', writes (written ops) r2 = Some r''
           ∧ buffer r' = buffer r'' ∧ i r' = i r'' ∧ capacity r' = capacity r'')
    as Hgen by (by apply Hgen).
  induction ops as [|o ops IH]; intros r1 r2 Hb Hi Hc; cbn.
  - intros [= <-]. exists r2. done.
  - destruct (apply o r1) as [r1'|] eqn:E; cbn; [| done].
    intros Hrun. destruct o as [data|]; cbn in E.
    + destruct (write_same_storage _ _ r2 _ Hb Hi Hc E) as (r2' & Hw & Hb' & Hi' & Hc').
      destruct (IH r1' r2' Hb' Hi' Hc' Hrun) as (r'' & Hr'' & ?).
      exists r''. split; [| done].
      change (write data r2 ≫= writes (written ops) = Some r'').
      by rewrite Hw.
    + injection E as <-. by apply (IH (clear r1) r2).
Qed.

End RingMore.

Lemma history_stays_in_bounds_witness :
  let r := CircularBuffer.mk [0; 0; 0; 0] 3 0 4 in
  CircularBuffer.in_bounds r
  ∧ ∃ r',
      CircularBuffer.run
        [CircularBuffer.op_write 1; CircularBuffer.op_clear; CircularBuffer.op_write 2] r
      = Some r'
      ∧ CircularBuffer.in_bounds r'
      ∧ CircularBuffer.capacity r' = CircularBuffer.capacity r
      ∧ length (CircularBuffer.buffer r') = length (CircularBuffer.buffer r).
Proof.
  intros r.
  assert (CircularBuffer.in_bounds r) as Hb by (split; [reflexivity | discriminate]).
  split; [exact Hb |].
  exact (history_stays_in_bounds
           [CircularBuffer.op_write 1; CircularBuffer.op_clear; CircularBuffer.op_write 2]
           r Hb).
Defined.

Lemma writes_below_wrap_witness :
  let r := CircularBuffer.mk [1; 2; 3; 4; 5] 1 0 4 in
  ∃ r',
    CircularBuffer.writes [7; 8] r = Some r'
    ∧ CircularBuffer.buffer r'
      = take (N.to_nat 1) [1; 2; 3; 4; 5] ++ (uchar <$> [7; 8])
        ++ drop (N.to_nat 1 + 2) [1; 2; 3; 4; 5]
    ∧ CircularBuffer.i r' = (if 1 + 2 <? 4 then 1 + 2 else 0).
Proof.
  intros r.
  apply (writes_below_wrap [7; 8] r); [reflexivity | discriminate..].
Defined.

Lemma writes_index_periodic_witness :
  let r := CircularBuffer.mk [1; 2; 3; 4; 5] 1 0 4 in
  ∃ r',
    CircularBuffer.writes [1; 2; 3; 4; 5; 6; 7; 8] r = Some r'
    ∧ CircularBuffer.i r' = (1 + 8) mod 4
    ∧ CircularBuffer.i r' < 4
    ∧ (8 mod 4 = 0 → CircularBuffer.i r' = 1).
Proof.
  intros r.
  apply (writes_index_periodic [1; 2; 3; 4; 5; 6; 7; 8] r);
    [reflexivity | discriminate..].
Defined.

Lemma overrun_overwrites_oldest_witness :
  let r := CircularBuffer.mk [0; 0; 0; 0] 0 0 4 in
  ∃ r',
    CircularBuffer.writes ([10; 20; 30; 40] ++ [50]) r = Some r'
    ∧ CircularBuffer.buffer r'
      = uchar 50 :: drop 1 (uchar <$> [10; 20; 30; 40]) ++ drop 4 [0; 0; 0; 0]
    ∧ CircularBuffer.i r' = 1 mod 4.
Proof.
  intros r.
  apply (overrun_overwrites_oldest [10; 20; 30; 40] 50 r);
    [reflexivity | discriminate | reflexivity | discriminate..].
Defined.

Lemma slots_beyond_capacity_untouched_witness :
  let r := CircularBuffer.mk [9; 9; 9; 9] 0 0 2 in
  let r' := CircularBuffer.mk [3; 2; 9; 9] 1 0 2 in
  CircularBuffer.run
    [CircularBuffer.op_write 1; CircularBuffer.op_write 2;
     CircularBuffer.op_clear; CircularBuffer.op_write 3] r = Some r'
  ∧ CircularBuffer.i r' < 2
  ∧ ∀ j : nat, (N.to_nat 2 ≤ j)%nat →
               CircularBuffer.buffer r' !! j = CircularBuffer.buffer r !! j.
Proof.
  intros r r'.
  assert (CircularBuffer.run
            [CircularBuffer.op_write 1; CircularBuffer.op_write 2;
             CircularBuffer.op_clear; CircularBuffer.op_write 3] r = Some r') as Hrun
    by (vm_compute; reflexivity).
  split; [exact Hrun |].
  exact (slots_beyond_capacity_untouched _ r r' eq_refl Hrun).
Defined.

Lemma zero_capacity_single_slot_witness :
  let r := CircularBuffer.construct 4 (CircularBuffer.mk [] 0 0 0) in
  ∃ r',
    CircularBuffer.writes ([1; 2] ++ [3]) r = Some r'
    ∧ CircularBuffer.buffer r' = <[0%nat := uchar 3]> (CircularBuffer.buffer r)
    ∧ CircularBuffer.i r' = 0.
Proof.
  intros r. apply (zero_capacity_single_slot [1; 2] 3 r); reflexivity.
Defined.

Lemma clear_calls_do_not_move_storage_witness :
  let r := CircularBuffer.mk [0; 0; 0] 0 7 3 in
  let r' := CircularBuffer.mk [1; 2; 0] 2 0 3 in
  let ops := [CircularBuffer.op_write 1; CircularBuffer.op_clear;
              CircularBuffer.op_write 2] in
  CircularBuffer.run ops r = Some r'
  ∧ ∃ r'',
      CircularBuffer.writes (written ops) r = Some r''
      ∧ CircularBuffer.buffer r' = CircularBuffer.buffer r''
      ∧ CircularBuffer.i r' = CircularBuffer.i r''
      ∧ CircularBuffer.capacity r' = CircularBuffer.capacity r''.
Proof.
  intros r r' ops.
  assert (CircularBuffer.run ops r = Some r') as Hrun by (vm_compute; reflexivity).
  split; [exact Hrun |].
  exact (clear_calls_do_not_move_storage ops r r' Hrun).
Defined.

(** ** The handler, invocation by invocation *)

Section SwitchboardMore.

Import Visualizer.

Implicit Types (s : state) (p q : buf_ptr) (r : CircularBuffer.t).

Variables BUF_SIZE ADC_BITS : N.

(** The byte that reaches the slot, from the two register halves. *)
Lemma uchar_sample adcl adch :
  adcl < 256 → adch < 256 →
  uchar (sample ADC_BITS adcl adch) = (if 8 <? ADC_BITS then adcl else adch).
Proof.
  intros Hl Hh. unfold sample, Preprocessor.isr_reads.
  destruct (8 <? ADC_BITS).
  - unfold uchar. rewrite N.add_comm, N.Div0.mod_add. by apply N.mod_small.
  - by apply uchar_small.
Qed.

(** X8.  What one invocation of the handler stores: when the capture
    ring's index is inside its storage the handler returns, and the slot at
    that index then holds one byte, the low half of the result register when
    more than eight bits are configured (the high half is dropped by the
    byte-wide slot) and the high half otherwise. *)
Theorem ISR_stores_one_byte adcl adch s :
  adcl < 256 → adch < 256 →
  CircularBuffer.i (deref (capt_buf s) s)
    < N.of_nat (length (CircularBuffer.buffer (deref (capt_buf s) s))) →
  ∃ s',
    ISR BUF_SIZE ADC_BITS adcl adch s = Some s'
    ∧ CircularBuffer.buffer (deref (capt_buf s) s')
        !! N.to_nat (CircularBuffer.i (deref (capt_buf s) s))
      = Some (if 8 <? ADC_BITS then adcl else adch).
Proof.
  intros Hl Hh Hi.
  destruct (proj2 (write_is_Some (sample ADC_BITS adcl adch) _) Hi) as [r Hw].
  assert (is_Some (ISR BUF_SIZE ADC_BITS adcl adch s)) as [s' Hs'].
  { unfold ISR. rewrite Hw. cbn. destruct (negb _ && _); eauto. }
  exists s'. split; [done |].
  apply ISR_inv in Hs' as (r' & Hw' & Hcases).
  assert (r' = r) as -> by congruence.
  assert (deref (capt_buf s) s' = r) as ->.
  { destruct Hcases as [(_ & _ & ->) | (_ & ->)].
    - by destruct (capt_buf s).
    - apply deref_assign_eq. }
  apply write_inv in Hw as (_ & -> & _).
  rewrite list_lookup_insert_eq by lia. f_equal. by apply uchar_sample.
Qed.

(** X9.  One invocation of the handler touches one ring only: when the two
    aliases differ, the ring [capt_buf] pointed to on entry is that ring
    after one [write] of the sample, and the ring [proc_buf] pointed to on
    entry is exactly as it was, whether or not the invocation exchanges the
    aliases. *)
Theorem ISR_writes_capture_ring_only adcl adch s s' :
  capt_buf s ≠ proc_buf s →
  ISR BUF_SIZE ADC_BITS adcl adch s = Some s' →
  CircularBuffer.write (sample ADC_BITS adcl adch) (deref (capt_buf s) s)
  = Some (deref (capt_buf s) s')
  ∧ deref (proc_buf s) s' = deref (proc_buf s) s.
Proof.
  intros Hne H. apply ISR_inv in H as (r & Hw & [(_ & _ & ->) | (_ & ->)]).
  - rewrite Hw. destruct (capt_buf s), (proc_buf s); done.
  - rewrite Hw, deref_assign_eq. split; [done |]. by apply deref_assign_ne.
Qed.

(** While the flag is down and both rings report [size] 0, conversions
    only ever reach the ring behind [capt_buf]. *)
Lemma ISRs_idle samples s :
  0 < BUF_SIZE →
  processing s = false → capt_buf s = Ping → proc_buf s = Pong →
  CircularBuffer.size (ping s) = 0 → CircularBuffer.size (pong s) = 0 →
  CircularBuffer.in_bounds (ping s) →
  ∃ s',
    ISRs BUF_SIZE ADC_BITS samples s = Some s'
    ∧ processing s' = false ∧ capt_buf s' = Ping ∧ proc_buf s' = Pong
    ∧ pong s' = pong s
    ∧ CircularBuffer.writes ((λ lh, sample ADC_BITS lh.1 lh.2) <$> samples) (ping s)
      = Some (ping s').
Proof.
  intros Hpos. revert s.
  induction samples as [|[adcl adch] rest IH]; intros s Hp Hc Hq Hz1 Hz2 Hb.
  - exists s. done.
  - destruct (ISR_is_Some BUF_SIZE ADC_BITS adcl adch s) as [s1 Hs1];
      [by rewrite Hc |].
    pose proof (ISR_idle _ _ _ _ _ _ Hpos Hp Hz1 Hz2 Hs1)
      as (Hp1 & Hz1' & Hz2' & Hc1 & Hq1).
    pose proof Hs1 as Hinv.
    apply ISR_inv in Hinv as (r & Hw & [(_ & _ & Heq) | (_ & Heq)]).
    { rewrite Heq in Hp1. done. }
    rewrite Hc in Hw, Heq. cbn in Hw, Heq.
    assert (ping s1 = r) as Hping by (by rewrite Heq).
    assert (pong s1 = pong s) as Hpong by (by rewrite Heq).
    destruct (IH s1) as (s' & Hrun & Hp' & Hc' & Hq' & Hpong' & Hwr); try congruence.
    { rewrite Hping. eapply write_in_bounds; eauto. }
    exists s'. cbn. rewrite Hs1. cbn. repeat split; try congruence.
    unfold CircularBuffer.writes in *. cbn. rewrite Hw. cbn. by rewrite <- Hping.
Qed.

(** X10.  As the program stands no frame ever reaches the foreground:
    starting from [setup] with a storage of at least one slot, the handler
    runs to completion on every conversion, never raises the flag and never
    exchanges the aliases; every sample is written into [ping], [pong]
    stays as constructed, and [loop] does not get past its spin. *)
Theorem from_setup_no_frame_is_handed_over
    (preprocess fft_input fft_execute fft_output postprocess : state → state)
    mem_ping mem_pong samples :
  0 < BUF_SIZE →
  CircularBuffer.capacity mem_ping <= BUF_SIZE →
  ∃ s',
    ISRs BUF_SIZE ADC_BITS samples (setup BUF_SIZE mem_ping mem_pong) = Some s'
    ∧ processing s' = false ∧ capt_buf s' = Ping ∧ proc_buf s' = Pong
    ∧ pong s' = CircularBuffer.construct BUF_SIZE mem_pong
    ∧ CircularBuffer.writes ((λ lh, sample ADC_BITS lh.1 lh.2) <$> samples)
        (CircularBuffer.construct BUF_SIZE mem_ping)
      = Some (ping s')
    ∧ loop preprocess fft_input fft_execute fft_output postprocess s' = None.
Proof.
  intros Hpos Hcap.
  destruct (ISRs_idle samples (setup BUF_SIZE mem_ping mem_pong))
    as (s' & Hrun & Hp & Hc & Hq & Hpong & Hw); try done.
  { by apply construct_in_bounds. }
  exists s'. repeat split; try done.
  unfold loop. by rewrite Hp.
Qed.

End SwitchboardMore.

Lemma ISR_stores_one_byte_witness :
  let s := Visualizer.mk false
             (CircularBuffer.mk [0; 0; 0; 0] 2 0 4)
             (CircularBuffer.mk [0; 0; 0; 0] 0 0 4)
             Visualizer.Ping Visualizer.Pong in
  ∃ s',
    Visualizer.ISR 4 9 52 1 s = Some s'
    ∧ CircularBuffer.buffer (Visualizer.deref (Visualizer.capt_buf s) s')
        !! N.to_nat (CircularBuffer.i (Visualizer.deref (Visualizer.capt_buf s) s))
      = Some (if 8 <? 9 then 52 else 1).
Proof.
  intros s. apply (ISR_stores_one_byte 4 9 52 1 s); reflexivity.
Defined.

Lemma ISR_writes_capture_ring_only_witness :
  let s := Visualizer.mk false
             (CircularBuffer.mk [10; 20; 30; 0] 3 4 4)
             (CircularBuffer.mk [1; 2; 3; 4] 0 0 4)
             Visualizer.Ping Visualizer.Pong in
  let s' := Visualizer.mk true
              (CircularBuffer.mk [10; 20; 30; 40] 0 4 4)
              (CircularBuffer.mk [1; 2; 3; 4] 0 0 4)
              Visualizer.Pong Visualizer.Ping in
  Visualizer.capt_buf s ≠ Visualizer.proc_buf s
  ∧ Visualizer.ISR 4 8 0 40 s = Some s'
  ∧ CircularBuffer.write (Visualizer.sample 8 0 40)
      (Visualizer.deref (Visualizer.capt_buf s) s)
    = Some (Visualizer.deref (Visualizer.capt_buf s) s')
  ∧ Visualizer.deref (Visualizer.proc_buf s) s'
    = Visualizer.deref (Visualizer.proc_buf s) s.
Proof.
  intros s s'.
  assert (Visualizer.capt_buf s ≠ Visualizer.proc_buf s) as Hne by discriminate.
  assert (Visualizer.ISR 4 8 0 40 s = Some s') as Hs by (vm_compute; reflexivity).
  split; [exact Hne |]. split; [exact Hs |].
  exact (ISR_writes_capture_ring_only 4 8 0 40 s s' Hne Hs).
Defined.

Lemma from_setup_no_frame_is_handed_over_witness :
  let mem := CircularBuffer.mk [] 0 0 4 in
  let samples := [(0, 10); (0, 20); (0, 30); (0, 40); (0, 50)] in
  ∃ s',
    Visualizer.ISRs 4 8 samples (Visualizer.setup 4 mem mem) = Some s'
    ∧ Visualizer.processing s' = false
    ∧ Visualizer.capt_buf s' = Visualizer.Ping
    ∧ Visualizer.proc_buf s' = Visualizer.Pong
    ∧ Visualizer.pong s' = CircularBuffer.construct 4 mem
    ∧ CircularBuffer.writes ((λ lh, Visualizer.sample 8 lh.1 lh.2) <$> samples)
        (CircularBuffer.construct 4 mem)
      = Some (Visualizer.ping s')
    ∧ Visualizer.loop id id id id id s' = None.
Proof.
  intros mem samples.
  apply (from_setup_no_frame_is_handed_over 4 8 id id id id id mem mem samples);
    [reflexivity | discriminate].
Defined.

(** ** The width chain and the storage type *)

Section PreprocessorMore.

Import Preprocessor.

(** X11.  The chain defines a sample width for exactly six values of the
    identifier it tests, and which width: 4 gives 5, 8 gives 7, 16 gives 8,
    and 32, 64 and 128 give 9; for every other value, 0 for an undefined
    identifier included, it ends in the [#error] arm. *)
Theorem ADC_BITS_defined_exactly env w :
  ADC_BITS env = Some w
  ↔ (value env "ADC_PRESCALAR", w)
    ∈ [(4, 5); (8, 7); (16, 8); (32, 9); (64, 9); (128, 9)].
Proof.
  unfold ADC_BITS. split.
  - repeat match goal with
           | |- context [?a =? ?b] =>
               destruct (N.eqb_spec a b) as [E|_];
               [intros [= <-]; rewrite E; compute_done |]
           end.
    done.
  - intros H.
    repeat (apply elem_of_cons in H as [[= -> ->] | H]; [reflexivity |]).
    by apply elem_of_nil in H.
Qed.

(** X12.  The width chain and the storage typedef taken together let the
    build through only for the three prescalers that give nine bits, and
    then with the two-byte type: for 4, 8 and 16 the width is at most 8 and
    the typedef is selected by an [#elif] that has no expression. *)
Theorem storage_type_defined_exactly env ty :
  (∃ w, ADC_BITS env = Some w ∧ adc_data_t w = Some ty)
  ↔ (value env "ADC_PRESCALAR" ∈ [32; 64; 128] ∧ ty = uint16_t).
Proof.
  unfold ADC_BITS. split.
  - intros (w & Hw & Hty). revert Hw.
    repeat match goal with
           | |- context [?a =? ?b] =>
               destruct (N.eqb_spec a b) as [E|_];
               [intros [= <-]; rewrite E; cbn in Hty;
                first [discriminate | injection Hty as <-; split; [compute_done | done]] |]
           end.
    done.
  - intros [H ->].
    repeat (apply elem_of_cons in H as [-> | H]; [by exists 9 |]).
    by apply elem_of_nil in H.
Qed.

End PreprocessorMore.

Lemma ADC_BITS_defined_exactly_witness :
  Preprocessor.ADC_BITS {[ "ADC_PRESCALAR"%string := 64 ]} = Some 9
  ∧ Preprocessor.ADC_BITS Preprocessor.source_macros ≠ Some 8.
Proof.
  split.
  - apply (proj2 (ADC_BITS_defined_exactly {[ "ADC_PRESCALAR"%string := 64 ]} 9)).
    compute_done.
  - intros H.
    apply (proj1 (ADC_BITS_defined_exactly Preprocessor.source_macros 8)) in H.
    revert H. compute_done.
Defined.

Lemma storage_type_defined_exactly_witness :
  (∃ w, Preprocessor.ADC_BITS {[ "ADC_PRESCALAR"%string := 64 ]} = Some w
        ∧ Preprocessor.adc_data_t w = Some Preprocessor.uint16_t)
  ∧ ¬ (∃ w, Preprocessor.ADC_BITS {[ "ADC_PRESCALAR"%string := 16 ]} = Some w
            ∧ Preprocessor.adc_data_t w = Some Preprocessor.uint8_t).
Proof.
  split.
  - apply (proj2 (storage_type_defined_exactly
                    {[ "ADC_PRESCALAR"%string := 64 ]} Preprocessor.uint16_t)).
    split; [compute_done | reflexivity].
  - intros H.
    apply (proj1 (storage_type_defined_exactly
                    {[ "ADC_PRESCALAR"%string := 16 ]} Preprocessor.uint8_t)) in H.
    destruct H as [_ H]. discriminate H.
Defined.

(** ** What [setup] leaves in the registers *)

Section HardwareMore.

Import Hardware.

Variable position : bit → N.

Lemma testbit_set_bit b v k :
  N.testbit (set_bit position b v) k = N.testbit v k || (k =? position b).
Proof.
  unfold set_bit. rewrite N.lor_spec, N.shiftl_1_l, N.pow2_bits_eqb.
  by rewrite (N.eqb_sym k).
Qed.

Lemma testbit_clear_bit b v k :
  N.testbit (clear_bit position b v) k = N.testbit v k && negb (k =? position b).
Proof.
  unfold clear_bit. rewrite N.ldiff_spec, N.shiftl_1_l, N.pow2_bits_eqb.
  by rewrite (N.eqb_sym k).
Qed.

Lemma regs_exec a m R :
  regs (exec position a m) R = register_step position R (regs m R) a.
Proof.
  destruct a as [r b|r b| |r v| | | |]; try reflexivity.
  cbn. by destruct (decide (b = ADSC)).
Qed.

Lemma regs_exec_all l m R :
  regs (exec_all position l m) R = foldl (register_step position R) (regs m R) l.
Proof.
  revert m. induction l as [|a l IH]; intros m; [done |].
  change (exec_all position (a :: l) m) with (exec_all position l (exec position a m)).
  rewrite IH, regs_exec. done.
Qed.


(** What [setup] leaves in each register it touches, in terms of what the
    register held on entry. *)
Lemma setup_ADCSRA ADC_BITS m :
  regs (exec_all position (setup ADC_BITS) m) ADCSRA
  = set_bit position ADPS0 (clear_bit position ADPS1 (set_bit position ADPS2
      (set_bit position ADIE (set_bit position ADSC (set_bit position ADEN
         (regs m ADCSRA)))))).
Proof.
  rewrite regs_exec_all. unfold setup, init_analog.
  destruct (ADC_BITS <=? 8); reflexivity.
Qed.

Lemma setup_ADCSRB ADC_BITS m :
  regs (exec_all position (setup ADC_BITS) m) ADCSRB
  = clear_bit position ADTS0 (clear_bit position ADTS1 (clear_bit position ADTS2
      (regs m ADCSRB))).
Proof.
  rewrite regs_exec_all. unfold setup, init_analog.
  destruct (ADC_BITS <=? 8); reflexivity.
Qed.

Lemma setup_DIDR0 ADC_BITS m :
  regs (exec_all position (setup ADC_BITS) m) DIDR0
  = set_bit position ADC0D (set_bit position ADC1D (set_bit position ADC2D
      (set_bit position ADC3D (set_bit position ADC4D (set_bit position ADC5D
         (regs m DIDR0)))))).
Proof.
  rewrite regs_exec_all. unfold setup, init_analog.
  destruct (ADC_BITS <=? 8); reflexivity.
Qed.

Lemma setup_ADMUX ADC_BITS m :
  regs (exec_all position (setup ADC_BITS) m) ADMUX
  = (if ADC_BITS <=? 8 then set_bit position ADLAR (regs m ADMUX)
     else clear_bit position ADLAR (regs m ADMUX)).
Proof.
  rewrite regs_exec_all. unfold setup, init_analog.
  destruct (ADC_BITS <=? 8); reflexivity.
Qed.

Ltac bool_simpl :=
  rewrite ?N.eqb_refl; cbn [negb];
  rewrite ?orb_true_r, ?andb_false_r, ?andb_true_r, ?orb_false_r;
  cbn [orb andb negb].

(** X13.  Whatever [ADC_PRESCALER] and the sample width are and whatever
    the control register held before, [setup] leaves the converter and its
    completion interrupt enabled and the three prescaler select bits at
    1, 0, 1, provided the bit [ADPS1], the only one it clears, does not
    share its position with one of the others. *)
Theorem setup_programs_control_register ADC_BITS m :
  position ADPS1 ∉ [position ADEN; position ADIE; position ADPS2; position ADPS0] →
  let v := regs (exec_all position (setup ADC_BITS) m) ADCSRA in
  N.testbit v (position ADEN) = true
  ∧ N.testbit v (position ADIE) = true
  ∧ N.testbit v (position ADPS2) = true
  ∧ N.testbit v (position ADPS1) = false
  ∧ N.testbit v (position ADPS0) = true.
Proof.
  rewrite !not_elem_of_cons. intros (H1 & H2 & H3 & H4 & _) v. subst v.
  apply N.eqb_neq in H1, H2, H3, H4.
  rewrite (N.eqb_sym (position ADPS1)) in H1, H2, H3.
  rewrite setup_ADCSRA. generalize (regs m ADCSRA). intros v0.
  rewrite !testbit_set_bit, !testbit_clear_bit, !testbit_set_bit.
  rewrite ?N.eqb_refl, ?H1, ?H2, ?H3, ?H4. bool_simpl. done.
Qed.

(** X14.  After [setup] the three trigger-source bits are clear and the six
    digital-input-disable bits are set, whatever the two registers held
    before, and every other bit of those two registers is as it was. *)
Theorem setup_programs_trigger_and_inputs ADC_BITS m :
  let m' := exec_all position (setup ADC_BITS) m in
  (∀ b, b ∈ [ADTS2; ADTS1; ADTS0] →
        N.testbit (regs m' ADCSRB) (position b) = false)
  ∧ (∀ k, k ∉ position <$> [ADTS2; ADTS1; ADTS0] →
          N.testbit (regs m' ADCSRB) k = N.testbit (regs m ADCSRB) k)
  ∧ (∀ b, b ∈ [ADC5D; ADC4D; ADC3D; ADC2D; ADC1D; ADC0D] →
          N.testbit (regs m' DIDR0) (position b) = true)
  ∧ (∀ k, k ∉ position <$> [ADC5D; ADC4D; ADC3D; ADC2D; ADC1D; ADC0D] →
          N.testbit (regs m' DIDR0) k = N.testbit (regs m DIDR0) k).
Proof.
  intros m'. subst m'. rewrite setup_ADCSRB, setup_DIDR0.
  generalize (regs m ADCSRB) (regs m DIDR0). intros vb vd.
  split; [| split; [| split]].
  - intros b Hb. rewrite !testbit_clear_bit.
    repeat (apply elem_of_cons in Hb as [-> | Hb]; [by bool_simpl |]).
    by apply elem_of_nil in Hb.
  - intros k. cbn [fmap list_fmap]. rewrite !not_elem_of_cons.
    intros (H2 & H1 & H0 & _). apply N.eqb_neq in H2, H1, H0.
    rewrite !testbit_clear_bit, H2, H1, H0. by bool_simpl.
  - intros b Hb. rewrite !testbit_set_bit.
    repeat (apply elem_of_cons in Hb as [-> | Hb]; [by bool_simpl |]).
    by apply elem_of_nil in Hb.
  - intros k. cbn [fmap list_fmap]. rewrite !not_elem_of_cons.
    intros (H5 & H4 & H3 & H2 & H1 & H0 & _).
    apply N.eqb_neq in H5, H4, H3, H2, H1, H0.
    rewrite !testbit_set_bit, H5, H4, H3, H2, H1, H0. by bool_simpl.
Qed.

(** X15.  Of the multiplexer register [setup] writes the justification bit
    only: it is set exactly when the sample width is at most 8, and every
    other bit, the channel selection included, is left as found, since
    or-ing in pin number 0 changes nothing. *)
Theorem setup_programs_justification_only ADC_BITS m :
  let m' := exec_all position (setup ADC_BITS) m in
  N.testbit (regs m' ADMUX) (position ADLAR) = (ADC_BITS <=? 8)
  ∧ ∀ k, k ≠ position ADLAR →
         N.testbit (regs m' ADMUX) k = N.testbit (regs m ADMUX) k.
Proof.
  intros m'. subst m'. rewrite setup_ADMUX. split.
  - destruct (ADC_BITS <=? 8);
      rewrite ?testbit_set_bit, ?testbit_clear_bit; by bool_simpl.
  - intros k Hk. apply N.eqb_neq in Hk.
    destruct (ADC_BITS <=? 8);
      rewrite ?testbit_set_bit, ?testbit_clear_bit, Hk; by bool_simpl.
Qed.

Lemma reference_exec_all l m :
  analogReference_EXTERNAL ∈ l → reference_external (exec_all position l m) = true.
Proof.
  enough (∀ m, reference_external m = true ∨ analogReference_EXTERNAL ∈ l →
               reference_external (exec_all position l m) = true) by eauto.
  clear m. induction l as [|a l IH]; intros m [Hm | Hin].
  - done.
  - by apply elem_of_nil in Hin.
  - change (exec_all position (a :: l) m) with (exec_all position l (exec position a m)).
    apply IH. left. destruct a as [r b|r b| |r v| | | |]; try done.
    cbn. by destruct (decide (b = ADSC)).
  - change (exec_all position (a :: l) m) with (exec_all position l (exec position a m)).
    apply IH. apply elem_of_cons in Hin as [<- | Hin]; [by left | by right].
Qed.

(** X16.  [setup] starts exactly one conversion, asks for the external
    reference, and touches the interrupt flag with its last statement only:
    after any proper prefix of its statements the flag is as it was on
    entry, set or not, and after the whole of it the flag is set. *)
Theorem setup_enables_interrupts_last ADC_BITS m :
  let m' := exec_all position (setup ADC_BITS) m in
  conversions_started m' = S (conversions_started m)
  ∧ reference_external m' = true
  ∧ interrupts_enabled m' = true
  ∧ ∀ pre post,
      setup ADC_BITS = pre ++ post → post ≠ [] →
      interrupts_enabled (exec_all position pre m) = interrupts_enabled m.
Proof.
  intros m'. subst m'. split; [| split; [| split]].
  - rewrite exec_all_conversions. unfold setup, init_analog.
    destruct (ADC_BITS <=? 8); cbn; lia.
  - apply reference_exec_all. unfold setup, init_analog.
    destruct (ADC_BITS <=? 8); compute_done.
  - rewrite exec_all_interrupts. unfold setup, init_analog.
    by destruct (ADC_BITS <=? 8).
  - intros pre post Hsplit Hpost.
    destruct (sei_is_last ADC_BITS) as (l & Hl & Hsei & _).
    destruct (exists_last Hpost) as (post' & a & ->).
    rewrite Hl, app_assoc in Hsplit. apply app_inj_tail in Hsplit as [-> _].
    rewrite exec_all_interrupts.
    assert (existsb enables_interrupts pre = false) as ->; [| done].
    apply not_true_is_false. intros Hex. apply existsb_exists in Hex as (x & Hx & He).
    destruct x; try done. apply Hsei, elem_of_app. left. by apply list_elem_of_In.
Qed.

End HardwareMore.

Lemma setup_programs_control_register_witness :
  let v := Hardware.regs
             (Hardware.exec_all datasheet_position (Hardware.setup 8) all_ones_machine)
             Hardware.ADCSRA in
  (datasheet_position Hardware.ADPS1
     ∉ [datasheet_position Hardware.ADEN; datasheet_position Hardware.ADIE;
        datasheet_position Hardware.ADPS2; datasheet_position Hardware.ADPS0])
  ∧ N.testbit v (datasheet_position Hardware.ADEN) = true
  ∧ N.testbit v (datasheet_position Hardware.ADIE) = true
  ∧ N.testbit v (datasheet_position Hardware.ADPS2) = true
  ∧ N.testbit v (datasheet_position Hardware.ADPS1) = false
  ∧ N.testbit v (datasheet_position Hardware.ADPS0) = true.
Proof.
  intros v.
  assert (datasheet_position Hardware.ADPS1
            ∉ [datasheet_position Hardware.ADEN; datasheet_position Hardware.ADIE;
               datasheet_position Hardware.ADPS2; datasheet_position Hardware.ADPS0])
    as Hd by compute_done.
  split; [exact Hd |].
  exact (setup_programs_control_register datasheet_position 8 all_ones_machine Hd).
Defined.

Lemma setup_programs_trigger_and_inputs_witness :
  let m' := Hardware.exec_all datasheet_position (Hardware.setup 8) all_ones_machine in
  N.testbit (Hardware.regs m' Hardware.ADCSRB) (datasheet_position Hardware.ADTS1) = false
  ∧ N.testbit (Hardware.regs m' Hardware.ADCSRB) 6
    = N.testbit (Hardware.regs all_ones_machine Hardware.ADCSRB) 6
  ∧ N.testbit (Hardware.regs m' Hardware.DIDR0) (datasheet_position Hardware.ADC3D) = true
  ∧ N.testbit (Hardware.regs m' Hardware.DIDR0) 7
    = N.testbit (Hardware.regs all_ones_machine Hardware.DIDR0) 7.
Proof.
  intros m'.
  pose proof (setup_programs_trigger_and_inputs datasheet_position 8 all_ones_machine)
    as (H1 & H2 & H3 & H4).
  split; [apply (H1 Hardware.ADTS1); compute_done |].
  split; [apply (H2 6); compute_done |].
  split; [apply (H3 Hardware.ADC3D); compute_done |].
  apply (H4 7); compute_done.
Defined.

Lemma setup_programs_justification_only_witness :
  let m' := Hardware.exec_all datasheet_position (Hardware.setup 9) all_ones_machine in
  N.testbit (Hardware.regs m' Hardware.ADMUX) (datasheet_position Hardware.ADLAR)
  = (9 <=? 8)
  ∧ N.testbit (Hardware.regs m' Hardware.ADMUX) 2
    = N.testbit (Hardware.regs all_ones_machine Hardware.ADMUX) 2.
Proof.
  intros m'.
  pose proof (setup_programs_justification_only datasheet_position 9 all_ones_machine)
    as (H1 & H2).
  split; [exact H1 |]. apply (H2 2). discriminate.
Defined.

Lemma setup_enables_interrupts_last_witness :
  let m' := Hardware.exec_all datasheet_position (Hardware.setup 8) all_ones_machine in
  let pre := Hardware.init_analog 8 ++ Hardware.init_adc in
  Hardware.conversions_started m' = 1%nat
  ∧ Hardware.reference_external m' = true
  ∧ Hardware.interrupts_enabled m' = true
  ∧ Hardware.interrupts_enabled
      (Hardware.exec_all datasheet_position pre all_ones_machine) = false.
Proof.
  intros m' pre.
  pose proof (setup_enables_interrupts_last datasheet_position 8 all_ones_machine)
    as (H1 & H2 & H3 & H4).
  split; [exact H1 |]. split; [exact H2 |]. split; [exact H3 |].
  apply (H4 pre [Hardware.assign_capt_buf_ping; Hardware.assign_proc_buf_pong;
                 Hardware.assign_processing_false; Hardware.sei]);
    [reflexivity | discriminate].
Defined.
